(** * The work matcher of the IMSLP CSV processors

    A shallow embedding of the matching code of two of the processors,
    [complete_solutions_processor.py] and [ultimate_csv_processor.py]:
    key generation, exact lookup and the word-overlap test of
    [_find_work_mapping], and the row numbering of [read_csv_works]; and,
    for [complete_solutions_processor.py], the way from the entries read to
    the report: [test_imslp_url], [get_pdf_links_from_work],
    [process_csv_works] and the counts of [generate_html_report] and [main].

    Methods that read [self] or may raise are written in a small state and
    exception monad over the processor object. *)

From Stdlib Require Import Ascii String QArith Sorted.
From stdpp Require Import base option list strings gmap.

Close Scope Q_scope.
Open Scope string_scope.
Open Scope nat_scope.
Open Scope list_scope.

(** ** Python strings *)

(** A [str] is modelled as a sequence of code points below 256; the
    functions below follow the built-in methods on that range. *)
Module PyStr.

Definition in_range (lo hi n : N) : bool := ((lo <=? n) && (n <=? hi))%N.

(** [str.isspace] on one character: TAB..CR, FS..US and SPACE, NEL, NBSP. *)
Definition isspace (c : ascii) : bool :=
  let n := N_of_ascii c in
  in_range 9 13 n || in_range 28 32 n || (n =? 133)%N || (n =? 160)%N.

Definition lower_char (c : ascii) : ascii :=
  let n := N_of_ascii c in
  if in_range 65 90 n || in_range 192 214 n || in_range 216 222 n
  then ascii_of_N (n + 32) else c.

(** [s.lower()] *)
Fixpoint lower (s : string) : string :=
  match s with
  | EmptyString => EmptyString
  | String c s' => String (lower_char c) (lower s')
  end.

Definition is_empty (s : string) : bool :=
  match s with EmptyString => true | _ => false end.

(** [s.replace(old, new)] for a non-empty [old]: occurrences are found
    from the left and do not overlap; [skip] counts the characters of
    a match that are still to be dropped. *)
Fixpoint replace_from (old new : string) (skip : nat) (s : string) : string :=
  match s with
  | EmptyString => EmptyString
  | String c s' =>
      match skip with
      | S k => replace_from old new k s'
      | O =>
          if String.prefix old s
          then new +:+ replace_from old new (String.length old - 1) s'
          else String c (replace_from old new 0 s')
      end
  end.

(** With an empty [old], Python puts [new] around every character. *)
Fixpoint interleave (new s : string) : string :=
  match s with
  | EmptyString => new
  | String c s' => new +:+ String c (interleave new s')
  end.

Definition replace (old new s : string) : string :=
  if is_empty old then interleave new s else replace_from old new 0 s.

(** [s.split()]: maximal runs of non-space characters. *)
Fixpoint split_from (word s : string) : list string :=
  match s with
  | EmptyString => if is_empty word then [] else [word]
  | String c s' =>
      if isspace c
      then (if is_empty word then split_from "" s' else word :: split_from "" s')
      else split_from (word +:+ String c "") s'
  end.

Definition split (s : string) : list string := split_from "" s.

(** [sep.join(l)] *)
Definition join (sep : string) (l : list string) : string := String.concat sep l.

(** [sub in s] *)
Fixpoint contains (sub s : string) : bool :=
  String.prefix sub s ||
  match s with
  | EmptyString => false
  | String _ s' => contains sub s'
  end.

Fixpoint lstrip (s : string) : string :=
  match s with
  | EmptyString => EmptyString
  | String c s' => if isspace c then lstrip s' else s
  end.

Fixpoint rstrip (s : string) : string :=
  match s with
  | EmptyString => EmptyString
  | String c s' =>
      let r := rstrip s' in
      if isspace c && is_empty r then EmptyString else String c r
  end.

(** [s.strip()] *)
Definition strip (s : string) : string := rstrip (lstrip s).

(** [set(s.split())] *)
Definition word_set (s : string) : gset string := list_to_set (split s).

End PyStr.

(** ** Data model *)

(** One entry of [work_mappings]: a dict with the keys ['full_title'],
    ['composer'], ['imslp_url'] and, for some entries, ['note']. *)
Record WorkRecord := {
  full_title : string;
  composer : string;
  imslp_url : string;
  note : option string
}.

(** A Python [dict] with [str] keys: lookup by key, iteration in insertion
    order. The entries are kept in insertion order and [get] takes the
    first entry of a key. *)
Module PyDict.

Definition t (V : Type) : Type := list (string * V).

Fixpoint get {V} (d : t V) (k : string) : option V :=
  match d with
  | [] => None
  | (k', v) :: d' => if String.eqb k' k then Some v else get d' k
  end.

(** [k in d] *)
Definition contains {V} (d : t V) (k : string) : bool :=
  match get d k with Some _ => true | None => false end.

(** [d.items()] *)
Definition items {V} (d : t V) : list (string * V) := d.

End PyDict.

(** The processor object: the headers of its [requests.Session] and the
    reference table built by its constructor. *)
Record processor := {
  session_headers : list (string * string);
  work_mappings : PyDict.t WorkRecord
}.

Inductive exn :=
| KeyError (k : string)
| ZeroDivisionError
| StopIteration
| OSError (path : string).

Inductive log_record :=
| LogInfo (count : nat) (csv_file : string)
| LogError (csv_file : string) (e : exn).

(** What a method can read and change: the processor and the module's
    logger. *)
Record world := {
  self : processor;
  logged : list log_record
}.

Inductive outcome (A : Type) :=
| Returned (a : A)
| Raised (e : exn).
Arguments Returned {A} a.
Arguments Raised {A} e.

(** ** The monad of methods *)

Definition M (A : Type) : Type := world → outcome A * world.

#[global] Instance M_ret : MRet M := λ A a w, (Returned a, w).

#[global] Instance M_bind : MBind M := λ A B f m w,
  match m w with
  | (Returned a, w') => f a w'
  | (Raised e, w') => (Raised e, w')
  end.

Definition raise {A} (e : exn) : M A := λ w, (Raised e, w).

Definition get_self : M processor := λ w, (Returned (self w), w).

Definition emit (r : log_record) : M unit :=
  λ w, (Returned (), {| self := self w; logged := logged w ++ [r] |}).

(** [try: body except Exception as e: handler(e)] *)
Definition try_except {A} (body : M A) (handler : exn → M A) : M A := λ w,
  match body w with
  | (Returned a, w') => (Returned a, w')
  | (Raised e, w') => handler e w'
  end.

(** [d[k]] *)
Definition getitem {V} (d : PyDict.t V) (k : string) : M V :=
  match PyDict.get d k with
  | Some v => mret v
  | None => raise (KeyError k)
  end.

(** [a / b] on two lengths. The quotient is kept as a rational: Python
    rounds it to a double and compares with the double nearest to the
    literal, which gives the same answer as comparing the rationals for
    all lengths below 10^15. *)
Definition truediv (a b : nat) : M Q :=
  match b with
  | O => raise ZeroDivisionError
  | S _ => mret (Qmake (Z.of_nat a) (Pos.of_nat b))
  end.

(** [next(it)] on an iterator over the remaining items. *)
Definition next {A} (it : list A) : M (A * list A) :=
  match it with
  | [] => raise StopIteration
  | x :: rest => mret (x, rest)
  end.

(** ** complete_solutions_processor.py *)

Module CompleteSolutions.

Import PyStr.

(** The first search key of [_find_work_mapping]. *)
Definition basic_key (composer title : string) : string :=
  let basic_key := lower composer +:+ " " +:+ lower title in
  let basic_key := replace "movement" "" (replace "mvt" "" (replace "mvt." "" basic_key)) in
  let basic_key := replace "op." "op" (replace "no." "no" (replace "all movements" "" basic_key)) in
  join " " (split basic_key).

(** The keys added for the musical terms found in the title. *)
Definition key_terms (composer title : string) : list string :=
  let title_lower := lower title in
  let c := lower composer in
  (if contains "sonata" title_lower then [c +:+ " piano sonata"] else []) ++
  (if contains "symphony" title_lower then [c +:+ " symphony"] else []) ++
  (if contains "concerto" title_lower then [c +:+ " concerto"] else []) ++
  (if contains "trio" title_lower then [c +:+ " trio"] else []) ++
  (if contains "quartet" title_lower then [c +:+ " quartet"] else []) ++
  (if contains "suite" title_lower then [c +:+ " suite"] else []) ++
  (if contains "fugue" title_lower || contains "wtc" title_lower
   then [c +:+ " well-tempered clavier"; c +:+ " wtc"] else []) ++
  (if contains "brandenburg" title_lower then [c +:+ " brandenburg"] else []) ++
  (if contains "gavotte" title_lower
   then [c +:+ " orchestral suite"; c +:+ " gavottes"] else []) ++
  (if contains "french suite" title_lower then [c +:+ " french suite"] else []) ++
  (if contains "cello suite" title_lower then [c +:+ " cello suite"] else []) ++
  (if contains "novelletten" title_lower then [c +:+ " novelletten"] else []) ++
  (if contains "four seasons" title_lower || contains "winter" title_lower
      || contains "summer" title_lower
   then [c +:+ " winter"; c +:+ " summer"] else []) ++
  (if contains "anna magdalena" title_lower || contains "march in d" title_lower
   then [c +:+ " anna magdalena"] else []).

Definition search_keys (composer title : string) : list string :=
  basic_key composer title :: key_terms composer title.

Definition stop_words : gset string :=
  {[ "no"; "op"; "in"; "major"; "minor"; "mvt"; "movement" ]}.

Definition _is_strong_match (search_key mapping_key : string) : M bool :=
  let search_words := word_set search_key in
  let mapping_words := word_set mapping_key in
  let common_words := stop_words in
  let search_words := search_words ∖ common_words in
  let mapping_words := mapping_words ∖ common_words in
  if (size search_words =? 0)%nat || (size mapping_words =? 0)%nat then mret false else
  let common_words := search_words ∩ mapping_words in
  if (size common_words <? 2)%nat then mret false else
  match_ratio ← truediv (size common_words) (size mapping_words);
  mret (Qle_bool (Qmake 7 10) match_ratio).

(** The words of a key that count, their number in common, and the test
    [_is_strong_match] amounts to. *)
Definition key_tokens (key : string) : gset string := word_set key ∖ stop_words.

Definition overlap (search_key mapping_key : string) : nat :=
  size (key_tokens search_key ∩ key_tokens mapping_key).

Definition strong (search_key mapping_key : string) : Prop :=
  2 ≤ overlap search_key mapping_key ∧
  7 * size (key_tokens mapping_key) ≤ 10 * overlap search_key mapping_key.

(** The first loop: [None] when the loop ends without returning. *)
Fixpoint exact_loop (search_keys : list string) : M (option WorkRecord) :=
  match search_keys with
  | [] => mret None
  | search_key :: rest =>
      this ← get_self;
      if PyDict.contains (work_mappings this) search_key
      then this ← get_self;
           mapping ← getitem (work_mappings this) search_key;
           mret (Some mapping)
      else exact_loop rest
  end.

(** The inner loop over [self.work_mappings.items()]. *)
Fixpoint scan_items (search_key : string) (items : list (string * WorkRecord))
  : M (option WorkRecord) :=
  match items with
  | [] => mret None
  | (mapping_key, mapping) :: rest =>
      b ← _is_strong_match search_key mapping_key;
      if (b : bool) then mret (Some mapping) else scan_items search_key rest
  end.

(** The second loop. *)
Fixpoint partial_loop (search_keys : list string) : M (option WorkRecord) :=
  match search_keys with
  | [] => mret None
  | search_key :: rest =>
      this ← get_self;
      r ← scan_items search_key (PyDict.items (work_mappings this));
      match r with
      | Some mapping => mret (Some mapping)
      | None => partial_loop rest
      end
  end.

Definition _find_work_mapping (composer title : string) : M (option WorkRecord) :=
  let search_keys := search_keys composer title in
  r ← exact_loop search_keys;
  match r with
  | Some mapping => mret (Some mapping)
  | None =>
      r ← partial_loop search_keys;
      match r with
      | Some mapping => mret (Some mapping)
      | None => mret None
      end
  end.

(** One entry of the list [read_csv_works] returns. *)
Record work := {
  original_composer : string;
  original_title : string;
  csv_row : nat;
  mapped_work : option WorkRecord
}.

(** What opening and reading the file gives: the first line as
    [f.readline()] returns it, and the rows [csv.reader(f)] yields after
    [f.seek(0)]. *)
Record csv_source := {
  first_readline : string;
  records : list (list string)
}.

Definition open (fs : string → option csv_source) (csv_file : string) : M csv_source :=
  match fs csv_file with
  | Some f => mret f
  | None => raise (OSError csv_file)
  end.

(** The body of [for row_num, row in enumerate(csv_reader, 1)]. *)
Fixpoint read_rows (row_num : nat) (csv_reader : list (list string)) (works : list work)
  : M (list work) :=
  match csv_reader with
  | [] => mret works
  | row :: rest =>
      match row with
      | r0 :: r1 :: _ =>
          if negb (is_empty (strip r0)) && negb (is_empty (strip r1))
          then
            let composer := strip r0 in
            let title := strip r1 in
            mapped ← _find_work_mapping composer title;
            let work := {| original_composer := composer;
                           original_title := title;
                           csv_row := row_num;
                           mapped_work := mapped |} in
            read_rows (S row_num) rest (works ++ [work])
          else read_rows (S row_num) rest works
      | _ => read_rows (S row_num) rest works
      end
  end.

Definition read_csv_works (fs : string → option csv_source) (csv_file : string)
  : M (list work) :=
  try_except
    (f ← open fs csv_file;
     let first_line := strip (first_readline f) in
     let csv_reader := records f in
     csv_reader ← (if String.eqb first_line ","
                   then ' (_, rest) ← next csv_reader; mret rest
                   else mret csv_reader);
     works ← read_rows 1 csv_reader [];
     _ ← emit (LogInfo (length works) csv_file);
     mret works)
    (λ e, _ ← emit (LogError csv_file e); mret []).

End CompleteSolutions.

(** ** ultimate_csv_processor.py *)

Module Ultimate.

Import PyStr.

Definition basic_key (composer title : string) : string :=
  let basic_key := lower composer +:+ " " +:+ lower title in
  let basic_key := replace "mvt" "" (replace "mvt." "" basic_key) in
  let basic_key := replace "all movements" "" (replace "movement" "" basic_key) in
  join " " (split basic_key).

Definition title_only (title : string) : string :=
  let title_only :=
    replace "movement" "" (replace "mvt" "" (replace "mvt." "" (lower title))) in
  join " " (split title_only).

Definition key_words : list string :=
  ["sonata"; "symphony"; "concerto"; "trio"; "quartet"; "suite"; "prelude"; "fugue";
   "variation"].

(** The loop [for word in key_words], giving the keys it appends. *)
Fixpoint composer_plus_keys (composer title : string) (words : list string) : list string :=
  match words with
  | [] => []
  | word :: rest =>
      if contains word (lower title)
      then (lower composer +:+ " " +:+ word) :: composer_plus_keys composer title rest
      else composer_plus_keys composer title rest
  end.

Definition search_keys (composer title : string) : list string :=
  [basic_key composer title] ++ [title_only title]
    ++ composer_plus_keys composer title key_words.

Definition _is_good_match (search_key mapping_key : string) : M bool :=
  let search_words := word_set search_key in
  let mapping_words := word_set mapping_key in
  let common_words := search_words ∩ mapping_words in
  if (size common_words <? 2)%nat then mret false else
  match_ratio ← truediv (size common_words) (size mapping_words);
  mret (Qle_bool (Qmake 6 10) match_ratio).

Definition overlap (search_key mapping_key : string) : nat :=
  size (word_set search_key ∩ word_set mapping_key).

Definition good (search_key mapping_key : string) : Prop :=
  2 ≤ overlap search_key mapping_key ∧
  6 * size (word_set mapping_key) ≤ 10 * overlap search_key mapping_key.

Fixpoint scan_items (search_key : string) (items : list (string * WorkRecord))
  : M (option WorkRecord) :=
  match items with
  | [] => mret None
  | (mapping_key, mapping) :: rest =>
      b ← _is_good_match search_key mapping_key;
      if (b : bool) then mret (Some mapping) else scan_items search_key rest
  end.

(** The single loop: each key is looked up and then compared with every
    entry before the next key is taken. *)
Fixpoint key_loop (search_keys : list string) : M (option WorkRecord) :=
  match search_keys with
  | [] => mret None
  | search_key :: rest =>
      this ← get_self;
      if PyDict.contains (work_mappings this) search_key
      then this ← get_self;
           mapping ← getitem (work_mappings this) search_key;
           mret (Some mapping)
      else
        this ← get_self;
        r ← scan_items search_key (PyDict.items (work_mappings this));
        match r with
        | Some mapping => mret (Some mapping)
        | None => key_loop rest
        end
  end.

Definition _find_work_mapping (composer title : string) : M (option WorkRecord) :=
  r ← key_loop (search_keys composer title);
  match r with
  | Some mapping => mret (Some mapping)
  | None => mret None
  end.

End Ultimate.

(** ** Notions used in the statements *)

#[global] Instance strong_dec sk mk : Decision (CompleteSolutions.strong sk mk).
Proof. unfold CompleteSolutions.strong. apply _. Defined.

#[global] Instance good_dec sk mk : Decision (Ultimate.good sk mk).
Proof. unfold Ultimate.good. apply _. Defined.

(** The first result a loop over [l] gets from [f]. *)
Fixpoint first_some {A B} (f : A → option B) (l : list A) : option B :=
  match l with
  | [] => None
  | x :: l' => match f x with Some b => Some b | None => first_some f l' end
  end.

(** The first entry of the table that a search key matches, for each of
    the two tests. *)
Definition strong_hit (table : PyDict.t WorkRecord) (search_key : string) : option WorkRecord :=
  first_some (λ kv : string * WorkRecord,
    if bool_decide (CompleteSolutions.strong search_key kv.1) then Some kv.2 else None) table.

Definition good_hit (table : PyDict.t WorkRecord) (search_key : string) : option WorkRecord :=
  first_some (λ kv : string * WorkRecord,
    if bool_decide (Ultimate.good search_key kv.1) then Some kv.2 else None) table.

(** What one round of [Ultimate.key_loop] finds for a key. *)
Definition key_hit (table : PyDict.t WorkRecord) (search_key : string) : option WorkRecord :=
  match PyDict.get table search_key with
  | Some mapping => Some mapping
  | None => good_hit table search_key
  end.

(** A key that is no key of the table and that matches no entry. *)
Definition misses (table : PyDict.t WorkRecord) (search_key : string) : Prop :=
  PyDict.get table search_key = None
  ∧ ∀ mk m, (mk, m) ∈ table → ¬ Ultimate.good search_key mk.

(** What [CompleteSolutions._find_work_mapping] returns on a table. *)
Definition cs_result (table : PyDict.t WorkRecord) (composer title : string)
  : option WorkRecord :=
  match first_some (PyDict.get table) (CompleteSolutions.search_keys composer title) with
  | Some m => Some m
  | None => first_some (strong_hit table) (CompleteSolutions.search_keys composer title)
  end.

(** The terms of [CompleteSolutions.key_terms] as a table: the words looked
    for in the title, and what is put after the composer when one is found. *)
Definition emitted_terms : list (list string * list string) :=
  [ (["sonata"], ["piano sonata"]);
    (["symphony"], ["symphony"]);
    (["concerto"], ["concerto"]);
    (["trio"], ["trio"]);
    (["quartet"], ["quartet"]);
    (["suite"], ["suite"]);
    (["fugue"; "wtc"], ["well-tempered clavier"; "wtc"]);
    (["brandenburg"], ["brandenburg"]);
    (["gavotte"], ["orchestral suite"; "gavottes"]);
    (["french suite"], ["french suite"]);
    (["cello suite"], ["cello suite"]);
    (["novelletten"], ["novelletten"]);
    (["four seasons"; "winter"; "summer"], ["winter"; "summer"]);
    (["anna magdalena"; "march in d"], ["anna magdalena"]) ].

Definition terms_of (composer title : string) (entry : list string * list string)
  : list string :=
  if existsb (λ word, PyStr.contains word (PyStr.lower title)) entry.1
  then (λ term, PyStr.lower composer +:+ " " +:+ term) <$> entry.2
  else [].

(** The composer and title of a row that [read_csv_works] keeps. *)
Definition valid_row (row : list string) : option (string * string) :=
  match row with
  | r0 :: r1 :: _ =>
      if negb (PyStr.is_empty (PyStr.strip r0)) && negb (PyStr.is_empty (PyStr.strip r1))
      then Some (PyStr.strip r0, PyStr.strip r1)
      else None
  | _ => None
  end.

(** The rows with their positions, counted from [start]. *)
Fixpoint numbered (start : nat) (rows : list (list string)) : list (nat * list string) :=
  match rows with
  | [] => []
  | row :: rest => (start, row) :: numbered (S start) rest
  end.

(** The number of rows [read_csv_works] drops before it starts counting. *)
Definition skipped (f : CompleteSolutions.csv_source) : nat :=
  if String.eqb (PyStr.strip (CompleteSolutions.first_readline f)) "," then 1 else 0.

Definition work_of (table : PyDict.t WorkRecord) (p : nat * list string)
  : option CompleteSolutions.work :=
  match valid_row p.2 with
  | Some (c, t) =>
      Some {| CompleteSolutions.original_composer := c;
              CompleteSolutions.original_title := t;
              CompleteSolutions.csv_row := p.1;
              CompleteSolutions.mapped_work := cs_result table c t |}
  | None => None
  end.

(** The row number, composer and title of a kept row at file position
    [p.1], when [offset] is taken off the position. *)
Definition row_entry (offset : nat) (p : nat * list string) : option (nat * string * string) :=
  match valid_row p.2 with
  | Some (c, t) => Some (p.1 - offset, c, t)
  | None => None
  end.

Definition entry_of (x : CompleteSolutions.work) : nat * string * string :=
  (CompleteSolutions.csv_row x, CompleteSolutions.original_composer x,
   CompleteSolutions.original_title x).

(** The smallest [c] with [c / n >= num / den]. *)
Definition ceil_ratio (num den n : nat) : nat := (num * n + (den - 1)) / den.

(** ** Sample data: entries of the two reference tables *)

(** The double quotes inside a note are written as single quotes. *)

Definition fanny_mendelssohn_trio : WorkRecord := {|
  full_title := "Piano Trio, Op.11";
  composer := "Hensel, Fanny";
  imslp_url := "https://imslp.org/wiki/Piano_Trio,_Op.11_(Hensel,_Fanny)";
  note := Some "Fanny Mendelssohn-Hensel is catalogued under 'Hensel, Fanny' on IMSLP"
|}.

Definition hensel_trio : WorkRecord := {|
  full_title := "Piano Trio, Op.11";
  composer := "Hensel, Fanny";
  imslp_url := "https://imslp.org/wiki/Piano_Trio,_Op.11_(Hensel,_Fanny)";
  note := Some "Alternative name for Fanny Mendelssohn"
|}.

Definition mozart_symphony_40 : WorkRecord := {|
  full_title := "Symphony No.40, K.550";
  composer := "Mozart, Wolfgang Amadeus";
  imslp_url := "https://imslp.org/wiki/Symphony_No.40,_K.550_(Mozart,_Wolfgang_Amadeus)";
  note := None
|}.

Definition bach_gavottes : WorkRecord := {|
  full_title := "Orchestral Suite No.3, BWV 1068";
  composer := "Bach, Johann Sebastian";
  imslp_url := "https://imslp.org/wiki/Orchestral_Suite_No.3,_BWV_1068_(Bach,_Johann_Sebastian)";
  note := Some "Contains the famous Gavottes 1 and 3"
|}.

Definition bach_orchestral_suite : WorkRecord := {|
  full_title := "Orchestral Suite No.3, BWV 1068";
  composer := "Bach, Johann Sebastian";
  imslp_url := "https://imslp.org/wiki/Orchestral_Suite_No.3,_BWV_1068_(Bach,_Johann_Sebastian)";
  note := Some "Contains the famous Gavottes"
|}.

(** Three entries that are in neither table, for keys of one word or with
    stop words. *)
Definition beethoven_symphony_5 : WorkRecord := {|
  full_title := "Symphony No.5, Op.67";
  composer := "Beethoven, Ludwig van";
  imslp_url := "https://imslp.org/wiki/Symphony_No.5,_Op.67_(Beethoven,_Ludwig_van)";
  note := None
|}.

Definition mozart_requiem : WorkRecord := {|
  full_title := "Requiem in D minor, K.626";
  composer := "Mozart, Wolfgang Amadeus";
  imslp_url := "https://imslp.org/wiki/Requiem_in_D_minor,_K.626_(Mozart,_Wolfgang_Amadeus)";
  note := None
|}.

Definition trio_table : PyDict.t WorkRecord :=
  [("fanny mendelssohn trio", fanny_mendelssohn_trio); ("hensel trio", hensel_trio)].

Definition suite_table : PyDict.t WorkRecord :=
  [("bach orchestral suite no. 3", bach_orchestral_suite); ("bach gavottes", bach_gavottes)].


Definition requiem_table : PyDict.t WorkRecord := [("requiem", mozart_requiem)].

Definition mozart_table : PyDict.t WorkRecord := [("mozart symphony 40", mozart_symphony_40)].

Definition a_processor (table : PyDict.t WorkRecord) : processor := {|
  session_headers := [("DNT", "1"); ("Connection", "keep-alive")];
  work_mappings := table
|}.

Definition a_world (table : PyDict.t WorkRecord) : world :=
  {| self := a_processor table; logged := [] |}.

(** A file whose first line is [","], read as four rows. *)
Definition header_source : CompleteSolutions.csv_source := {|
  CompleteSolutions.first_readline := String "," (String (ascii_of_nat 10) "");
  CompleteSolutions.records := [[""; ""]; ["Mozart"; "Symphony 40"]; []; ["Bach"; " Gavottes "]]
|}.

Definition a_file_system (path : string) : option CompleteSolutions.csv_source :=
  if String.eqb path "works.csv" then Some header_source else None.

Ltac no_good_match :=
  let mk := fresh "mk" in let m := fresh "m" in let H := fresh "H" in
  intros mk m H;
  repeat (apply elem_of_cons in H as [H|H];
          [injection H as -> ->; unfold Ultimate.good; vm_compute; lia|]);
  inversion H.

(** ** Notions used in the further properties *)

(** Whether a string has a character that [split] takes as a separator. *)
Fixpoint has_space (s : string) : bool :=
  match s with
  | EmptyString => false
  | String c s' => PyStr.isspace c || has_space s'
  end.

(** A word as [split] gives them: not empty and without a separator. *)
Definition is_word (s : string) : Prop := s ≠ "" ∧ has_space s = false.

(** A key that matches no entry of the table under [_is_strong_match]. *)
Definition no_strong_entry (table : PyDict.t WorkRecord) (search_key : string) : Prop :=
  ∀ mk m, (mk, m) ∈ table → ¬ CompleteSolutions.strong search_key mk.

Ltac no_strong_match :=
  let mk := fresh "mk" in let m := fresh "m" in let H := fresh "H" in
  intros mk m H;
  repeat (apply elem_of_cons in H as [H|H];
          [injection H as -> ->; unfold CompleteSolutions.strong; vm_compute; lia|]);
  inversion H.

(** The entries [read_csv_works] returns: none when the file cannot be
    opened, and otherwise those of the rows read. *)
Definition read_result (fs : string → option CompleteSolutions.csv_source)
    (csv_file : string) (table : PyDict.t WorkRecord) : list CompleteSolutions.work :=
  match fs csv_file with
  | Some f =>
      omap (work_of table) (numbered 1 (drop (skipped f) (CompleteSolutions.records f)))
  | None => []
  end.

(** A world with one more record in its log. *)
Definition with_log (w : world) (r : log_record) : world :=
  {| self := self w; logged := logged w ++ [r] |}.

Definition padded_source : CompleteSolutions.csv_source := {|
  CompleteSolutions.first_readline := "Composer,Title";
  CompleteSolutions.records :=
    [["Composer"; "Title"]; [" Bach "; "Gavottes  "; "x"]; ["Mozart"]; ["  "; "Requiem"];
     ["Haydn"; "Piano Sonata"]]
|}.

Definition padded_file_system (path : string) : option CompleteSolutions.csv_source :=
  if String.eqb path "anthology.csv" then Some padded_source else None.

Definition fields_of (x : CompleteSolutions.work) : string * string :=
  (CompleteSolutions.original_composer x, CompleteSolutions.original_title x).

Definition two_symphonies : PyDict.t WorkRecord :=
  [("symphony mozart", mozart_symphony_40); ("40 symphony mozart", beethoven_symphony_5)].

(** ** complete_solutions_processor.py: from the entries to the report *)

Module Pipeline.

(** What [BeautifulSoup] gives for one [<span class="we_file_info2">]:
    [span.find('a')] with its ['href'] and stripped text, and the stripped
    text of [span.parent]. *)
Record anchor := {
  href : option string;
  link_text : string
}.

Record span := {
  find_a : option anchor;
  parent_text : option string
}.

(** One reply of the network: the request raises, or it gives a response
    with a status code and, once parsed, the spans of the page. *)
Inductive reply :=
| NoReply
| Reply (status_code : nat) (pdf_spans : list span).

Inductive message :=
| UrlTestFailed (url : string) (e : exn)
| FoundPdfLinks (n : nat)
| PdfLinksError (e : exn)
| Processing (i total : nat) (composer title : string)
| CompleteSolution (n : nat)
| InvalidUrl (url : string)
| NoMapping.

(** What the methods do besides reading the table: sleeping between the
    bounds given to [random.uniform], requests, and log lines. *)
Inductive event :=
| Sleep (lo hi : nat)
| Head (url : string)
| Get (url : string)
| Log (level : string) (m : message).

(** The world of the matcher, the replies the network will give, in order,
    and what has happened so far. *)
Record stage := {
  inner : world;
  replies : list reply;
  events : list event
}.

Definition P (A : Type) : Type := stage → outcome A * stage.

#[global] Instance P_ret : MRet P := λ A a s, (Returned a, s).

#[global] Instance P_bind : MBind P := λ A B f m s,
  match m s with
  | (Returned a, s') => f a s'
  | (Raised e, s') => (Raised e, s')
  end.

Definition p_raise {A} (e : exn) : P A := λ s, (Raised e, s).

Definition p_try_except {A} (body : P A) (handler : exn → P A) : P A := λ s,
  match body s with
  | (Returned a, s') => (Returned a, s')
  | (Raised e, s') => handler e s'
  end.

(** A method of the matcher, run on the inner world. *)
Definition lift {A} (m : M A) : P A := λ s,
  let '(o, w') := m (inner s) in
  (o, {| inner := w'; replies := replies s; events := events s |}).

Definition record (e : event) : P unit := λ s,
  (Returned (), {| inner := inner s; replies := replies s; events := events s ++ [e] |}).

(** The next reply of the network; a request raises when there is none. *)
Definition request (url : string) : P (nat * list span) := λ s,
  match replies s with
  | Reply status_code pdf_spans :: rest =>
      (Returned (status_code, pdf_spans),
       {| inner := inner s; replies := rest; events := events s |})
  | NoReply :: rest =>
      (Raised (OSError url), {| inner := inner s; replies := rest; events := events s |})
  | [] => (Raised (OSError url), s)
  end.

(** [response.raise_for_status()] *)
Definition raise_for_status (url : string) (status_code : nat) : P unit :=
  if (400 <=? status_code) && (status_code <? 600) then p_raise (OSError url) else mret ().

(** [s.endswith(suffix)] *)
Definition endswith (suffix s : string) : bool :=
  (String.length suffix <=? String.length s)
  && String.eqb (String.substring (String.length s - String.length suffix)
                   (String.length suffix) s) suffix.

Record pdf_info := {
  title : string;
  download_url : string;
  description : string;
  file_size : string
}.

Definition _extract_pdf_description (sp : span) : string :=
  match parent_text sp with
  | Some text =>
      if 150 <? String.length text
      then String.substring 0 150 text +:+ "..."
      else text
  | None => "PDF Score"
  end.

Section Methods.

(** [urllib.parse.urljoin] and [_extract_file_size], which searches the
    text of the parent with a regular expression, are taken as given. *)
Variable urljoin : string → string → string.
Variable _extract_file_size : span → string.

(** The loop over [pdf_spans] of [get_pdf_links_from_work]. *)
Fixpoint collect_links (limit : Z) (pdf_spans : list span) (pdf_links : list pdf_info)
  : list pdf_info :=
  match pdf_spans with
  | [] => pdf_links
  | sp :: rest =>
      match find_a sp with
      | Some link =>
          match href link with
          | Some h =>
              if negb (PyStr.is_empty h)
                 && (endswith ".pdf" h || PyStr.contains "pdf" (PyStr.lower h))
              then
                let pdf_info := {| title := link_text link;
                                   download_url := urljoin "https://imslp.org" h;
                                   description := _extract_pdf_description sp;
                                   file_size := _extract_file_size sp |} in
                let pdf_links := pdf_links ++ [pdf_info] in
                if (limit <=? Z.of_nat (length pdf_links))%Z
                then pdf_links
                else collect_links limit rest pdf_links
              else collect_links limit rest pdf_links
          | None => collect_links limit rest pdf_links
          end
      | None => collect_links limit rest pdf_links
      end
  end.

Definition test_imslp_url (url : string) : P bool :=
  p_try_except
    (_ ← record (Head url);
     response ← request url;
     mret (response.1 =? 200))
    (λ e, _ ← record (Log "debug" (UrlTestFailed url e)); mret false).

Definition get_pdf_links_from_work (work_url : string) (limit : Z) : P (list pdf_info) :=
  p_try_except
    (_ ← record (Sleep 2 4);
     _ ← record (Get work_url);
     response ← request work_url;
     _ ← raise_for_status work_url response.1;
     let pdf_links := collect_links limit response.2 [] in
     _ ← record (Log "info" (FoundPdfLinks (length pdf_links)));
     mret pdf_links)
    (λ e, _ ← record (Log "error" (PdfLinksError e)); mret []).

(** An entry after [process_csv_works]: the entry read, and the keys the
    loop adds to it. *)
Record processed_work := {
  entry : CompleteSolutions.work;
  work_composer : string;
  work_title : string;
  work_url : option string;
  work_status : string;
  work_note : string;
  url_valid : bool;
  pdf_links : list pdf_info;
  pdf_links_found : nat
}.

(** [works[:max_works]] *)
Definition slice_to {A} (n : Z) (works : list A) : list A :=
  if (0 <=? n)%Z then take (Z.to_nat n) works
  else take (length works - Z.to_nat (- n)) works.

Definition process_one (i total : nat) (work : CompleteSolutions.work) : P processed_work :=
  _ ← record (Log "info" (Processing i total (CompleteSolutions.original_composer work)
                            (CompleteSolutions.original_title work)));
  match CompleteSolutions.mapped_work work with
  | Some mapped =>
      valid ← test_imslp_url (imslp_url mapped);
      if (valid : bool)
      then
        links ← get_pdf_links_from_work (imslp_url mapped) 3;
        _ ← record (Log "info" (CompleteSolution (length links)));
        mret {| entry := work;
                work_composer := composer mapped;
                work_title := full_title mapped;
                work_url := Some (imslp_url mapped);
                work_status := "mapped";
                work_note := default "" (note mapped);
                url_valid := true;
                pdf_links := links;
                pdf_links_found := length links |}
      else
        _ ← record (Log "warning" (InvalidUrl (imslp_url mapped)));
        mret {| entry := work;
                work_composer := composer mapped;
                work_title := full_title mapped;
                work_url := Some (imslp_url mapped);
                work_status := "mapped";
                work_note := default "" (note mapped);
                url_valid := false;
                pdf_links := [];
                pdf_links_found := 0 |}
  | None =>
      _ ← record (Log "warning" NoMapping);
      mret {| entry := work;
              work_composer := CompleteSolutions.original_composer work;
              work_title := CompleteSolutions.original_title work;
              work_url := None;
              work_status := "no_mapping";
              work_note := "";
              url_valid := false;
              pdf_links := [];
              pdf_links_found := 0 |}
  end.

(** The loop [for i, work in enumerate(works, 1)]. *)
Fixpoint process_loop (total i : nat) (works : list CompleteSolutions.work)
    (processed_works : list processed_work) : P (list processed_work) :=
  match works with
  | [] => mret processed_works
  | work :: rest =>
      p ← process_one i total work;
      _ ← record (Sleep 1 2);
      process_loop total (S i) rest (processed_works ++ [p])
  end.

Definition process_csv_works (fs : string → option CompleteSolutions.csv_source)
    (csv_file : string) (max_works : option Z) : P (list processed_work) :=
  works ← lift (CompleteSolutions.read_csv_works fs csv_file);
  let works :=
    match max_works with
    | Some n => if (n =? 0)%Z then works else slice_to n works
    | None => works
    end in
  process_loop (length works) 1 works [].

End Methods.

(** The counts of [generate_html_report] and its success rate, in
    percent. *)
Definition total_works (works : list processed_work) : nat := length works.

Definition mapped_works (works : list processed_work) : nat :=
  length (filter (λ w, work_status w = "mapped") works).

Definition valid_urls (works : list processed_work) : nat :=
  length (filter (λ w, url_valid w = true) works).

Definition total_pdfs (works : list processed_work) : nat :=
  sum_list (pdf_links_found <$> works).

Definition success_rate (works : list processed_work) : M Q :=
  if 0 <? total_works works
  then q ← truediv (valid_urls works) (total_works works); mret (Qmult q (inject_Z 100))
  else mret (inject_Z 0).

(** The ratios that [main] prints once the report is written, in the order
    in which it computes them: mapped and valid works in percent of all,
    the average number of PDFs of a valid work when there is one, and the
    coverage. *)
Definition main_statistics (works : list processed_work) : M (Q * Q * option Q * Q) :=
  let total := total_works works in
  let mapped := mapped_works works in
  let valid := valid_urls works in
  let pdfs := total_pdfs works in
  m ← truediv mapped total;
  v ← truediv valid total;
  a ← (if 0 <? valid then q ← truediv pdfs valid; mret (Some q) else mret None);
  c ← truediv valid total;
  mret (Qmult m (inject_Z 100), Qmult v (inject_Z 100), a, Qmult c (inject_Z 100)).

End Pipeline.

(** ** Notions and sample data of the pipeline *)

(** What holds of every entry that [process_csv_works] returns. *)
Definition consistent (p : Pipeline.processed_work) : Prop :=
  Pipeline.pdf_links_found p = length (Pipeline.pdf_links p)
  ∧ length (Pipeline.pdf_links p) ≤ 3
  ∧ (Pipeline.url_valid p = true → Pipeline.work_status p = "mapped")
  ∧ (Pipeline.url_valid p = false → Pipeline.pdf_links p = [])
  ∧ (Pipeline.work_status p = "mapped"
     ↔ is_Some (CompleteSolutions.mapped_work (Pipeline.entry p)))
  ∧ (Pipeline.work_status p = "no_mapping"
     ↔ CompleteSolutions.mapped_work (Pipeline.entry p) = None)
  ∧ Pipeline.work_url p = imslp_url <$> CompleteSolutions.mapped_work (Pipeline.entry p).

(** The reply to a request for a page, as lists of links: none unless the
    page is there. *)
Definition page_spans (r : option Pipeline.reply) : list Pipeline.span :=
  match r with
  | Some (Pipeline.Reply status_code pdf_spans) =>
      if (400 <=? status_code) && (status_code <? 600) then [] else pdf_spans
  | _ => []
  end.

(** The entries that [process_csv_works] goes through. *)
Definition selected {A} (max_works : option Z) (works : list A) : list A :=
  match max_works with
  | Some n => if (n =? 0)%Z then works else Pipeline.slice_to n works
  | None => works
  end.

Definition a_stage (table : PyDict.t WorkRecord) (replies : list Pipeline.reply)
  : Pipeline.stage :=
  {| Pipeline.inner := a_world table; Pipeline.replies := replies; Pipeline.events := [] |}.

Definition score_span (h : string) : Pipeline.span :=
  {| Pipeline.find_a := Some {| Pipeline.href := Some h; Pipeline.link_text := "Score" |};
     Pipeline.parent_text := Some "Complete Score" |}.

Definition plain_urljoin (base url : string) : string := base +:+ url.

Definition no_file_size (sp : Pipeline.span) : string := "Unknown size".

(** The replies to the requests of a run over two matched entries: the
    first address is there, and its page has five links, four of them to
    PDFs; the second address is not found. *)
Definition two_pages : list Pipeline.reply :=
  [ Pipeline.Reply 200 [];
    Pipeline.Reply 200
      [score_span "/files/a.pdf"; score_span "/files/b.txt"; score_span "/files/PDF/c";
       score_span "/files/d.pdf"; score_span "/files/e.pdf"];
    Pipeline.Reply 404 [] ].

Definition two_matches_source : CompleteSolutions.csv_source := {|
  CompleteSolutions.first_readline := "Bach,Gavottes";
  CompleteSolutions.records :=
    [["Bach"; "Gavottes"]; ["Bach"; "Orchestral Suite No. 3"]; ["Haydn"; "Piano Sonata"]]
|}.

Definition two_matches_file_system (path : string) : option CompleteSolutions.csv_source :=
  if String.eqb path "two.csv" then Some two_matches_source else None.

(** The list that a run returned, empty when it raised. *)
Definition result_of {A} (run : outcome (list A) * Pipeline.stage) : list A :=
  match run.1 with
  | Returned l => l
  | Raised _ => []
  end.

(** The works of a run over that file and network. *)
Definition two_matches_works : list Pipeline.processed_work :=
  result_of (Pipeline.process_csv_works plain_urljoin no_file_size
               two_matches_file_system "two.csv" None (a_stage suite_table two_pages)).

(** A file without a line. *)
Definition empty_source : CompleteSolutions.csv_source := {|
  CompleteSolutions.first_readline := "";
  CompleteSolutions.records := []
|}.

Definition empty_file_system (path : string) : option CompleteSolutions.csv_source :=
  if String.eqb path "empty.csv" then Some empty_source else None.

(** * Properties *)

Example lower_ex : PyStr.lower "Symphony No.40 in G minor, mvt. 1" = "symphony no.40 in g minor, mvt. 1".
Proof. reflexivity. Qed.

Example replace_ex : PyStr.replace "mvt" "" "a mvt.mvtx mv" = "a .x mv".
Proof. reflexivity. Qed.

Example replace_overlap_ex : PyStr.replace "movement" "" "all movemovementments" = "all movements".
Proof. reflexivity. Qed.

Example split_ex : PyStr.split "  mozart   symphony 40 " = ["mozart"; "symphony"; "40"].
Proof. reflexivity. Qed.

Example strip_ex : PyStr.strip "  a b  " = "a b".
Proof. reflexivity. Qed.

Example word_set_ex : size (PyStr.word_set "piano sonata piano no 8" ∖ {["no"]}) = 3.
Proof. vm_compute. reflexivity. Qed.

(** ** Running the monad *)

Section MonadLaws.
Context {A B : Type}.

Lemma bind_run (m : M A) (f : A → M B) w :
  (m ≫= f) w =
  match m w with
  | (Returned a, w') => f a w'
  | (Raised e, w') => (Raised e, w')
  end.
Proof. reflexivity. Qed.

Lemma bind_returned (m : M A) (f : A → M B) w a w' :
  m w = (Returned a, w') → (m ≫= f) w = f a w'.
Proof. intros H. rewrite bind_run, H. reflexivity. Qed.
End MonadLaws.

Lemma truediv_run a b w :
  0 < b → truediv a b w = (Returned (Qmake (Z.of_nat a) (Pos.of_nat b)), w).
Proof. destruct b; [lia | reflexivity]. Qed.

(** The comparison of the quotient with a literal [num/10], in integers. *)
Lemma Qle_bool_ratio (num : Z) (c n : nat) :
  0 < n →
  Qle_bool (Qmake num 10) (Qmake (Z.of_nat c) (Pos.of_nat n)) = true
  ↔ (num * Z.of_nat n ≤ 10 * Z.of_nat c)%Z.
Proof.
  intros Hn. unfold Qle_bool. cbn [Qnum Qden].
  rewrite Z.leb_le.
  replace (Z.pos (Pos.of_nat n)) with (Z.of_nat n).
  - lia.
  - destruct n as [|n]; [lia|].
    rewrite <- Pos.of_nat_succ. rewrite Zpos_P_of_succ_nat. lia.
Qed.

Lemma ceil_ratio_bounds num n :
  num * n ≤ 10 * ceil_ratio num 10 n ∧ 10 * ceil_ratio num 10 n < num * n + 10.
Proof.
  unfold ceil_ratio. cbn [Nat.sub].
  pose proof (Nat.div_mod_eq (num * n + 9) 10) as Hd.
  pose proof (Nat.mod_upper_bound (num * n + 9) 10 ltac:(lia)) as Hm.
  lia.
Qed.

(** ** The two match tests *)

Lemma strong_match_run sk mk w :
  CompleteSolutions._is_strong_match sk mk w
  = (Returned (bool_decide (CompleteSolutions.strong sk mk)), w).
Proof.
  unfold CompleteSolutions._is_strong_match, CompleteSolutions.strong,
    CompleteSolutions.overlap, CompleteSolutions.key_tokens.
  set (sw := PyStr.word_set sk ∖ CompleteSolutions.stop_words).
  set (mw := PyStr.word_set mk ∖ CompleteSolutions.stop_words).
  pose proof (subseteq_size (sw ∩ mw) sw (intersection_subseteq_l sw mw)) as Hc1.
  pose proof (subseteq_size (sw ∩ mw) mw (intersection_subseteq_r sw mw)) as Hc2.
  destruct (size sw =? 0) eqn:Hsw; cbn [orb].
  { apply Nat.eqb_eq in Hsw. rewrite bool_decide_eq_false_2; [reflexivity | lia]. }
  destruct (size mw =? 0) eqn:Hmw.
  { apply Nat.eqb_eq in Hmw. rewrite bool_decide_eq_false_2; [reflexivity | lia]. }
  apply Nat.eqb_neq in Hmw.
  destruct (size (sw ∩ mw) <? 2) eqn:Hlt.
  { apply Nat.ltb_lt in Hlt. rewrite bool_decide_eq_false_2; [reflexivity | lia]. }
  apply Nat.ltb_ge in Hlt.
  rewrite bind_run, truediv_run by lia.
  unfold mret, M_ret. f_equal. f_equal.
  pose proof (Qle_bool_ratio 7 (size (sw ∩ mw)) (size mw) ltac:(lia)) as HQ.
  destruct (Qle_bool _ _).
  - symmetry. apply bool_decide_eq_true_2. split; [lia|].
    destruct HQ as [HQ _]. specialize (HQ eq_refl). lia.
  - symmetry. apply bool_decide_eq_false_2. intros [_ H]. destruct HQ as [_ HQ].
    assert (false = true) by (apply HQ; lia). discriminate.
Qed.

Lemma good_match_run sk mk w :
  Ultimate._is_good_match sk mk w = (Returned (bool_decide (Ultimate.good sk mk)), w).
Proof.
  unfold Ultimate._is_good_match, Ultimate.good, Ultimate.overlap.
  set (sw := PyStr.word_set sk). set (mw := PyStr.word_set mk).
  pose proof (subseteq_size (sw ∩ mw) mw (intersection_subseteq_r sw mw)) as Hc2.
  destruct (size (sw ∩ mw) <? 2) eqn:Hlt.
  { apply Nat.ltb_lt in Hlt. rewrite bool_decide_eq_false_2; [reflexivity | lia]. }
  apply Nat.ltb_ge in Hlt.
  rewrite bind_run, truediv_run by lia.
  unfold mret, M_ret. f_equal. f_equal.
  pose proof (Qle_bool_ratio 6 (size (sw ∩ mw)) (size mw) ltac:(lia)) as HQ.
  destruct (Qle_bool _ _).
  - symmetry. apply bool_decide_eq_true_2. split; [lia|].
    destruct HQ as [HQ _]. specialize (HQ eq_refl). lia.
  - symmetry. apply bool_decide_eq_false_2. intros [_ H]. destruct HQ as [_ HQ].
    assert (false = true) by (apply HQ; lia). discriminate.
Qed.

(** ** Loops as searches *)

Section FirstSome.
Context {A B : Type} (f : A → option B).

Lemma first_some_app_hit before x after b :
  (∀ y, y ∈ before → f y = None) → f x = Some b →
  first_some f (before ++ x :: after) = Some b.
Proof.
  intros Hb Hx. induction before as [|y before IH]; cbn.
  - rewrite Hx. reflexivity.
  - rewrite (Hb y) by left. apply IH. intros z Hz. apply Hb. right. exact Hz.
Qed.

Lemma first_some_Some l b :
  first_some f l = Some b → ∃ x, x ∈ l ∧ f x = Some b.
Proof.
  induction l as [|x l IH]; cbn; [discriminate|].
  destruct (f x) as [b'|] eqn:Hx.
  - intros [= <-]. exists x. split; [left | exact Hx].
  - intros H. destruct (IH H) as (y & Hy & Hfy).
    exists y. split; [right; exact Hy | exact Hfy].
Qed.

Lemma first_some_None l :
  first_some f l = None ↔ ∀ x, x ∈ l → f x = None.
Proof.
  induction l as [|x l IH]; cbn.
  - split; [intros _ y Hy; inversion Hy | reflexivity].
  - destruct (f x) as [b|] eqn:Hx.
    + split; [discriminate|]. intros H. specialize (H x ltac:(left)). congruence.
    + rewrite IH. split.
      * intros H y Hy. apply elem_of_cons in Hy as [->|Hy]; [exact Hx | apply H, Hy].
      * intros H y Hy. apply H. right. exact Hy.
Qed.
End FirstSome.

Lemma get_elem_of {V} (d : PyDict.t V) k v : PyDict.get d k = Some v → (k, v) ∈ d.
Proof.
  induction d as [|[k' v'] d IH]; cbn; [discriminate|].
  destruct (String.eqb k' k) eqn:He.
  - apply String.eqb_eq in He as ->. intros [= ->]. left.
  - intros H. right. apply IH, H.
Qed.

Lemma contains_get {V} (d : PyDict.t V) k :
  PyDict.contains d k = match PyDict.get d k with Some _ => true | None => false end.
Proof. reflexivity. Qed.

Lemma strong_hit_Some table sk r :
  strong_hit table sk = Some r → ∃ mk, (mk, r) ∈ table ∧ CompleteSolutions.strong sk mk.
Proof.
  intros H. apply first_some_Some in H as ([mk m] & Hin & Hf). cbn [fst snd] in Hf.
  case_bool_decide as Hs; [|discriminate]. injection Hf as ->. eauto.
Qed.

Lemma good_hit_Some table sk r :
  good_hit table sk = Some r → ∃ mk, (mk, r) ∈ table ∧ Ultimate.good sk mk.
Proof.
  intros H. apply first_some_Some in H as ([mk m] & Hin & Hf). cbn [fst snd] in Hf.
  case_bool_decide as Hs; [|discriminate]. injection Hf as ->. eauto.
Qed.

Lemma good_hit_None table sk :
  (∀ mk m, (mk, m) ∈ table → ¬ Ultimate.good sk mk) → good_hit table sk = None.
Proof.
  intros H. apply first_some_None. intros [mk m] Hin. cbn [fst snd].
  rewrite bool_decide_eq_false_2; [reflexivity | eapply H, Hin].
Qed.

Lemma misses_key_hit table k : misses table k → key_hit table k = None.
Proof. intros [Hg Hf]. unfold key_hit. rewrite Hg. apply good_hit_None, Hf. Qed.

Lemma key_hit_Some table k r : key_hit table k = Some r → ∃ mk, (mk, r) ∈ table.
Proof.
  unfold key_hit. destruct (PyDict.get table k) as [m|] eqn:Hk.
  - intros [= <-]. exists k. apply get_elem_of, Hk.
  - intros H. apply good_hit_Some in H as (mk & Hin & _). eauto.
Qed.

Lemma cs_scan_items_run sk items w :
  CompleteSolutions.scan_items sk items w = (Returned (strong_hit items sk), w).
Proof.
  induction items as [|[mk m] items IH]; [reflexivity|].
  cbn [CompleteSolutions.scan_items]. rewrite bind_run, strong_match_run.
  unfold strong_hit. cbn [first_some fst snd].
  destruct (bool_decide (CompleteSolutions.strong sk mk)); [reflexivity | exact IH].
Qed.

Lemma cs_exact_loop_run keys w :
  CompleteSolutions.exact_loop keys w
  = (Returned (first_some (PyDict.get (work_mappings (self w))) keys), w).
Proof.
  induction keys as [|k keys IH]; [reflexivity|].
  cbn [CompleteSolutions.exact_loop first_some]. rewrite bind_run. cbn [get_self].
  rewrite contains_get.
  destruct (PyDict.get (work_mappings (self w)) k) as [m|] eqn:Hk.
  - rewrite bind_run. cbn [get_self]. rewrite bind_run. unfold getitem. rewrite Hk.
    reflexivity.
  - exact IH.
Qed.

Lemma cs_partial_loop_run keys w :
  CompleteSolutions.partial_loop keys w
  = (Returned (first_some (strong_hit (work_mappings (self w))) keys), w).
Proof.
  induction keys as [|k keys IH]; [reflexivity|].
  cbn [CompleteSolutions.partial_loop first_some]. rewrite bind_run. cbn [get_self].
  rewrite bind_run. unfold PyDict.items. rewrite cs_scan_items_run.
  destruct (strong_hit _ k); [reflexivity | exact IH].
Qed.

Lemma cs_find_run c t w :
  CompleteSolutions._find_work_mapping c t w
  = (Returned (cs_result (work_mappings (self w)) c t), w).
Proof.
  unfold CompleteSolutions._find_work_mapping, cs_result.
  rewrite bind_run, cs_exact_loop_run.
  destruct (first_some (PyDict.get _) _); [reflexivity|].
  rewrite bind_run, cs_partial_loop_run.
  destruct (first_some (strong_hit _) _); reflexivity.
Qed.

Lemma ult_scan_items_run sk items w :
  Ultimate.scan_items sk items w = (Returned (good_hit items sk), w).
Proof.
  induction items as [|[mk m] items IH]; [reflexivity|].
  cbn [Ultimate.scan_items]. rewrite bind_run, good_match_run.
  unfold good_hit. cbn [first_some fst snd].
  destruct (bool_decide (Ultimate.good sk mk)); [reflexivity | exact IH].
Qed.

Lemma ult_key_loop_run keys w :
  Ultimate.key_loop keys w
  = (Returned (first_some (key_hit (work_mappings (self w))) keys), w).
Proof.
  induction keys as [|k keys IH]; [reflexivity|].
  cbn [Ultimate.key_loop first_some]. rewrite bind_run. cbn [get_self].
  rewrite contains_get. unfold key_hit at 1.
  destruct (PyDict.get (work_mappings (self w)) k) as [m|] eqn:Hk.
  - rewrite bind_run. cbn [get_self]. rewrite bind_run. unfold getitem. rewrite Hk.
    reflexivity.
  - rewrite bind_run. cbn [get_self]. rewrite bind_run. unfold PyDict.items.
    rewrite ult_scan_items_run. destruct (good_hit _ k); [reflexivity | exact IH].
Qed.

Lemma ult_find_run c t w :
  Ultimate._find_work_mapping c t w
  = (Returned (first_some (key_hit (work_mappings (self w))) (Ultimate.search_keys c t)), w).
Proof.
  unfold Ultimate._find_work_mapping. rewrite bind_run, ult_key_loop_run.
  destruct (first_some _ _); reflexivity.
Qed.

(** ** The scenarios of the matcher *)

Example bach_gavottes_scenario :
  CompleteSolutions.search_keys "Bach" "Gavottes from Orchestral Suite"
    = ["bach gavottes from orchestral suite"; "bach suite"; "bach orchestral suite";
       "bach gavottes"]
  ∧ CompleteSolutions._find_work_mapping "Bach" "Gavottes from Orchestral Suite"
      (a_world suite_table) = (Returned (Some bach_gavottes), a_world suite_table).
Proof. split; vm_compute; reflexivity. Qed.

Example haydn_piano_sonata_scenario :
  CompleteSolutions._find_work_mapping "Haydn" "Piano Sonata" (a_world mozart_table)
    = (Returned None, a_world mozart_table).
Proof. vm_compute. reflexivity. Qed.

Example mozart_symphony_40_scenario :
  Ultimate._find_work_mapping "Mozart" "Symphony No.40 in G minor, mvt. 1"
    (a_world mozart_table) = (Returned (Some mozart_symphony_40), a_world mozart_table).
Proof. vm_compute. reflexivity. Qed.

(** ** C1: exact hits and the fuzzy path *)

(** C1, as amended. In [complete_solutions_processor] every candidate key
    is looked up before any entry is compared: when a candidate key is a
    key of the table and no earlier candidate is, the result is the record
    of that key. In [ultimate_csv_processor] each candidate key is looked up
    and then compared with every entry before the next key is taken: the
    record of the first exact key is returned when, in addition, no earlier
    candidate key is a good match of some entry; and when an earlier
    candidate key is a good match of some entry, the result is the record
    of the first entry that the first such key matches, which may be
    another record or the same. *)
Theorem exact_match_priority (c t : string) (w : world) (before after : list string)
    (k : string) (r : WorkRecord) :
  (∀ k', k' ∈ before → PyDict.get (work_mappings (self w)) k' = None) →
  PyDict.get (work_mappings (self w)) k = Some r →
  (CompleteSolutions.search_keys c t = before ++ k :: after →
   CompleteSolutions._find_work_mapping c t w = (Returned (Some r), w))
  ∧ (Ultimate.search_keys c t = before ++ k :: after →
     (∀ k' mk m, k' ∈ before → (mk, m) ∈ work_mappings (self w) → ¬ Ultimate.good k' mk) →
     Ultimate._find_work_mapping c t w = (Returned (Some r), w))
  ∧ (Ultimate.search_keys c t = before ++ k :: after →
     ∀ b1 k' b2 m, before = b1 ++ k' :: b2 →
       (∀ k'' mk' m', k'' ∈ b1 → (mk', m') ∈ work_mappings (self w) →
          ¬ Ultimate.good k'' mk') →
       good_hit (work_mappings (self w)) k' = Some m →
       Ultimate._find_work_mapping c t w = (Returned (Some m), w)).
Proof.
  intros Hbefore Hk. split; [|split].
  - intros Hkeys. rewrite cs_find_run. unfold cs_result. rewrite Hkeys.
    rewrite (first_some_app_hit _ before k after r Hbefore Hk). reflexivity.
  - intros Hkeys Hfuzzy. rewrite ult_find_run, Hkeys.
    rewrite (first_some_app_hit _ before k after r); [reflexivity | | ].
    + intros k' Hk'. unfold key_hit. rewrite (Hbefore k' Hk').
      apply good_hit_None. intros mk m. apply Hfuzzy, Hk'.
    + unfold key_hit. rewrite Hk. reflexivity.
  - intros Hkeys b1 k' b2 m Hb Hb1 Hm. rewrite ult_find_run, Hkeys, Hb.
    rewrite <- app_assoc, <- app_comm_cons.
    rewrite (first_some_app_hit _ b1 k' (b2 ++ k :: after) m); [reflexivity | | ].
    + intros k'' Hk''. unfold key_hit. rewrite (Hbefore k'').
      * apply good_hit_None. intros mk' m'. apply Hb1, Hk''.
      * rewrite Hb. apply elem_of_app. left. exact Hk''.
    + unfold key_hit. rewrite (Hbefore k'), Hm; [reflexivity|].
      rewrite Hb. apply elem_of_app. right. left.
Qed.

Lemma exact_match_priority_witness :
  CompleteSolutions._find_work_mapping "Bach" "Gavottes from Orchestral Suite"
    (a_world suite_table) = (Returned (Some bach_gavottes), a_world suite_table)
  ∧ Ultimate._find_work_mapping "Mozart" "Requiem" (a_world requiem_table)
    = (Returned (Some mozart_requiem), a_world requiem_table)
  ∧ Ultimate._find_work_mapping "Fanny" "Hensel Trio" (a_world trio_table)
    = (Returned (Some fanny_mendelssohn_trio), a_world trio_table)
  ∧ Ultimate._find_work_mapping "J.S." "Bach Gavottes" (a_world suite_table)
    = (Returned (Some bach_gavottes), a_world suite_table).
Proof.
  split; [|split; [|split]].
  - refine (proj1 (exact_match_priority "Bach" "Gavottes from Orchestral Suite"
      (a_world suite_table)
      ["bach gavottes from orchestral suite"; "bach suite"; "bach orchestral suite"] []
      "bach gavottes" bach_gavottes _ _) _).
    + intros k' Hk'. repeat (apply elem_of_cons in Hk' as [->|Hk']); try reflexivity.
      inversion Hk'.
    + reflexivity.
    + vm_compute. reflexivity.
  - refine (proj1 (proj2 (exact_match_priority "Mozart" "Requiem"
      (a_world requiem_table) ["mozart requiem"] []
      "requiem" mozart_requiem _ _)) _ _).
    + intros k' Hk'. repeat (apply elem_of_cons in Hk' as [->|Hk']); try reflexivity.
      inversion Hk'.
    + reflexivity.
    + vm_compute. reflexivity.
    + intros k' mk m Hk'. apply elem_of_cons in Hk' as [->|Hk']; [|inversion Hk'].
      revert mk m. no_good_match.
  - refine (proj2 (proj2 (exact_match_priority "Fanny" "Hensel Trio"
      (a_world trio_table) ["fanny hensel trio"] ["fanny trio"]
      "hensel trio" hensel_trio _ _)) _ [] "fanny hensel trio" [] fanny_mendelssohn_trio
      eq_refl _ _).
    + intros k' Hk'. repeat (apply elem_of_cons in Hk' as [->|Hk']); try reflexivity.
      inversion Hk'.
    + reflexivity.
    + vm_compute. reflexivity.
    + intros k'' mk' m' Hk''. inversion Hk''.
    + vm_compute. reflexivity.
  - refine (proj2 (proj2 (exact_match_priority "J.S." "Bach Gavottes"
      (a_world suite_table) ["j.s. bach gavottes"] []
      "bach gavottes" bach_gavottes _ _)) _ [] "j.s. bach gavottes" [] bach_gavottes
      eq_refl _ _).
    + intros k' Hk'. repeat (apply elem_of_cons in Hk' as [->|Hk']); try reflexivity.
      inversion Hk'.
    + reflexivity.
    + vm_compute. reflexivity.
    + intros k'' mk' m' Hk''. inversion Hk''.
    + vm_compute. reflexivity.
Defined.

(** C1 as stated fails in [ultimate_csv_processor]: the second candidate key
    of ("Fanny", "Hensel Trio") is a key of the table, and the record
    returned is the one the first candidate key matched by word overlap. *)
Lemma interleaved_lookup_prefers_earlier_fuzzy_hit :
  Ultimate.search_keys "Fanny" "Hensel Trio" = ["fanny hensel trio"; "hensel trio"; "fanny trio"]
  ∧ PyDict.get trio_table "fanny hensel trio" = None
  ∧ PyDict.get trio_table "hensel trio" = Some hensel_trio
  ∧ Ultimate._find_work_mapping "Fanny" "Hensel Trio" (a_world trio_table)
    = (Returned (Some fanny_mendelssohn_trio), a_world trio_table)
  ∧ fanny_mendelssohn_trio ≠ hensel_trio.
Proof.
  repeat split; try (vm_compute; reflexivity).
  intros H. apply (f_equal note) in H. vm_compute in H. discriminate H.
Qed.

(** ** C2: at least two words in common *)




(** ** C3: the threshold *)

Lemma cs_overlap_le sk mk :
  CompleteSolutions.overlap sk mk ≤ size (CompleteSolutions.key_tokens mk).
Proof. apply subseteq_size, intersection_subseteq_r. Qed.

Lemma ult_overlap_le sk mk : Ultimate.overlap sk mk ≤ size (PyStr.word_set mk).
Proof. apply subseteq_size, intersection_subseteq_r. Qed.

(** C3, as amended. For a table key with [N >= 2] counted words:
    [_is_strong_match] of [complete_solutions_processor] holds for a
    candidate with exactly ceil(0.7 N) of them and fails for one with
    exactly ceil(0.7 N) - 1; [_is_good_match] of [ultimate_csv_processor]
    compares with 0.6 and counts every word of the key, so that it holds
    with exactly ceil(0.6 N) words in common and fails with
    ceil(0.6 N) - 1. For a table key with fewer than 2 counted words no
    candidate passes either test. *)
Theorem threshold_boundary (sk mk : string) (w : world) (N : nat) :
  (2 ≤ N →
   (size (CompleteSolutions.key_tokens mk) = N →
      (CompleteSolutions.overlap sk mk = ceil_ratio 7 10 N →
       CompleteSolutions._is_strong_match sk mk w = (Returned true, w))
      ∧ (CompleteSolutions.overlap sk mk = ceil_ratio 7 10 N - 1 →
         CompleteSolutions._is_strong_match sk mk w = (Returned false, w)))
   ∧ (size (PyStr.word_set mk) = N →
        (Ultimate.overlap sk mk = ceil_ratio 6 10 N →
         Ultimate._is_good_match sk mk w = (Returned true, w))
        ∧ (Ultimate.overlap sk mk = ceil_ratio 6 10 N - 1 →
           Ultimate._is_good_match sk mk w = (Returned false, w))))
  ∧ (size (CompleteSolutions.key_tokens mk) < 2 →
     CompleteSolutions._is_strong_match sk mk w = (Returned false, w))
  ∧ (size (PyStr.word_set mk) < 2 →
     Ultimate._is_good_match sk mk w = (Returned false, w)).
Proof.
  split; [|split].
  - intros HN. split; intros Hsize.
    + pose proof (ceil_ratio_bounds 7 N) as [Hlo Hhi].
      split; intros Hc; rewrite strong_match_run.
      * rewrite bool_decide_eq_true_2; [reflexivity | unfold CompleteSolutions.strong; lia].
      * rewrite bool_decide_eq_false_2; [reflexivity | unfold CompleteSolutions.strong; lia].
    + pose proof (ceil_ratio_bounds 6 N) as [Hlo Hhi].
      split; intros Hc; rewrite good_match_run.
      * rewrite bool_decide_eq_true_2; [reflexivity | unfold Ultimate.good; lia].
      * rewrite bool_decide_eq_false_2; [reflexivity | unfold Ultimate.good; lia].
  - intros Hsize. rewrite strong_match_run. pose proof (cs_overlap_le sk mk).
    rewrite bool_decide_eq_false_2; [reflexivity | unfold CompleteSolutions.strong; lia].
  - intros Hsize. rewrite good_match_run. pose proof (ult_overlap_le sk mk).
    rewrite bool_decide_eq_false_2; [reflexivity | unfold Ultimate.good; lia].
Qed.

Lemma threshold_boundary_witness :
  (CompleteSolutions._is_strong_match "mozart piano concerto 271" "mozart piano concerto k 271"
     (a_world trio_table) = (Returned true, a_world trio_table)
   ∧ CompleteSolutions._is_strong_match "mozart piano concerto" "mozart piano concerto k 271"
       (a_world trio_table) = (Returned false, a_world trio_table))
  ∧ (Ultimate._is_good_match "mozart piano concerto" "mozart piano concerto k 271"
       (a_world trio_table) = (Returned true, a_world trio_table)
     ∧ Ultimate._is_good_match "mozart piano" "mozart piano concerto k 271"
         (a_world trio_table) = (Returned false, a_world trio_table))
  ∧ (CompleteSolutions._is_strong_match "mozart requiem movement" "requiem movement"
       (a_world trio_table) = (Returned false, a_world trio_table)
     ∧ Ultimate._is_good_match "mozart requiem" "requiem"
         (a_world trio_table) = (Returned false, a_world trio_table)).
Proof.
  assert (H5 : 2 ≤ 5) by lia.
  pose proof (threshold_boundary "mozart piano concerto 271" "mozart piano concerto k 271"
                (a_world trio_table) 5) as [Ha _].
  pose proof (threshold_boundary "mozart piano concerto" "mozart piano concerto k 271"
                (a_world trio_table) 5) as [Hb _].
  pose proof (threshold_boundary "mozart piano" "mozart piano concerto k 271"
                (a_world trio_table) 5) as [Hd _].
  pose proof (threshold_boundary "mozart requiem movement" "requiem movement"
                (a_world trio_table) 1) as (_ & He & _).
  pose proof (threshold_boundary "mozart requiem" "requiem"
                (a_world trio_table) 1) as (_ & _ & Hf).
  split; [|split]; split.
  - refine (proj1 (proj1 (Ha H5) _) _); vm_compute; reflexivity.
  - refine (proj2 (proj1 (Hb H5) _) _); vm_compute; reflexivity.
  - refine (proj1 (proj2 (Hb H5) _) _); vm_compute; reflexivity.
  - refine (proj2 (proj2 (Hd H5) _) _); vm_compute; reflexivity.
  - apply He. vm_compute. lia.
  - apply Hf. vm_compute. lia.
Defined.

(** C3 as stated fails: a key with one counted word is not matched by a
    candidate that has this word, ceil(0.7 * 1) = 1 of them; and
    [ultimate_csv_processor] accepts 3 of 5 words, ceil(0.7 * 5) - 1. *)
Lemma one_word_key_is_never_matched :
  (size (CompleteSolutions.key_tokens "requiem") = 1
   ∧ CompleteSolutions.overlap "mozart requiem" "requiem" = ceil_ratio 7 10 1
   ∧ CompleteSolutions._is_strong_match "mozart requiem" "requiem" (a_world requiem_table)
     = (Returned false, a_world requiem_table))
  ∧ (size (PyStr.word_set "mozart piano concerto k 271") = 5
     ∧ Ultimate.overlap "mozart piano concerto" "mozart piano concerto k 271"
       = ceil_ratio 7 10 5 - 1
     ∧ Ultimate._is_good_match "mozart piano concerto" "mozart piano concerto k 271"
         (a_world requiem_table) = (Returned true, a_world requiem_table)).
Proof. repeat split; vm_compute; reflexivity. Qed.

(** ** C4 and C5: the candidate keys *)

Lemma prefix_append a b b' : String.prefix (a +:+ b) (a +:+ b') = String.prefix b b'.
Proof.
  induction a as [|x a IH]; [reflexivity|].
  change (String.prefix (String x (a +:+ b)) (String x (a +:+ b')) = String.prefix b b').
  cbn [String.prefix]. destruct (ascii_dec x x); [exact IH | contradiction].
Qed.

(** The chain of [if]s of [key_terms] reads the table [emitted_terms]. *)
Lemma key_terms_table c t :
  CompleteSolutions.key_terms c t = concat (terms_of c t <$> emitted_terms).
Proof.
  unfold CompleteSolutions.key_terms, emitted_terms, terms_of.
  cbn [fmap list_fmap concat existsb fst snd].
  rewrite !orb_false_r, app_nil_r, !orb_assoc. reflexivity.
Qed.

Lemma composer_plus_keys_elem c t words word :
  word ∈ words → PyStr.contains word (PyStr.lower t) = true →
  (PyStr.lower c +:+ " " +:+ word) ∈ Ultimate.composer_plus_keys c t words.
Proof.
  intros Hin Hc. induction words as [|x words IH]; [inversion Hin|].
  cbn [Ultimate.composer_plus_keys].
  apply elem_of_cons in Hin as [<-|Hin].
  - rewrite Hc. left.
  - destruct (PyStr.contains x _); [right|]; apply IH, Hin.
Qed.

Lemma terms_of_elem c t words terms word term :
  word ∈ words → PyStr.contains word (PyStr.lower t) = true → term ∈ terms →
  (PyStr.lower c +:+ " " +:+ term) ∈ terms_of c t (words, terms).
Proof.
  intros Hw Hc Ht. unfold terms_of. cbn [fst snd].
  replace (existsb _ words) with true.
  - apply list_elem_of_fmap. exists term. split; [reflexivity | exact Ht].
  - symmetry. apply existsb_exists. exists word.
    split; [apply list_elem_of_In, Hw | exact Hc].
Qed.

(** C4, as amended. In [ultimate_csv_processor] the candidate keys are the
    basic key, then the title-only key (the title in lower case without
    "mvt.", "mvt" and "movement", its spaces collapsed), then one key per
    key word found in the title, and they are tried in this order: the
    record of the basic key when it is a key of the table; the record of
    the title-only key when the basic key finds nothing and the title-only
    key is a key of the table; and the remaining keys only when both find
    nothing. [complete_solutions_processor] makes no title-only key: its
    keys are the basic key and then its key terms, each of which starts
    with the composer. *)
Theorem candidate_key_order (c t : string) (w : world) :
  let table := work_mappings (self w) in
  Ultimate.search_keys c t
    = Ultimate.basic_key c t :: Ultimate.title_only t
        :: Ultimate.composer_plus_keys c t Ultimate.key_words
  ∧ (∀ r, PyDict.get table (Ultimate.basic_key c t) = Some r →
       Ultimate._find_work_mapping c t w = (Returned (Some r), w))
  ∧ (∀ r, misses table (Ultimate.basic_key c t) →
       PyDict.get table (Ultimate.title_only t) = Some r →
       Ultimate._find_work_mapping c t w = (Returned (Some r), w))
  ∧ (misses table (Ultimate.basic_key c t) → misses table (Ultimate.title_only t) →
     Ultimate._find_work_mapping c t w
     = Ultimate.key_loop (Ultimate.composer_plus_keys c t Ultimate.key_words) w)
  ∧ CompleteSolutions.search_keys c t
    = CompleteSolutions.basic_key c t :: CompleteSolutions.key_terms c t
  ∧ Forall (λ k, String.prefix (PyStr.lower c +:+ " ") k = true)
      (CompleteSolutions.key_terms c t).
Proof.
  intros table. split; [reflexivity|]. split; [|split; [|split; [|split; [reflexivity|]]]].
  - intros r Hr. rewrite ult_find_run. unfold Ultimate.search_keys.
    cbn [app first_some]. unfold key_hit at 1. fold table. rewrite Hr. reflexivity.
  - intros r HA Hr. rewrite ult_find_run. unfold Ultimate.search_keys.
    cbn [app first_some]. fold table. rewrite (misses_key_hit _ _ HA).
    unfold key_hit at 1. rewrite Hr. reflexivity.
  - intros HA HB. rewrite ult_find_run, ult_key_loop_run. unfold Ultimate.search_keys.
    cbn [app first_some]. fold table.
    rewrite (misses_key_hit _ _ HA), (misses_key_hit _ _ HB). reflexivity.
  - unfold CompleteSolutions.key_terms. rewrite !Forall_app.
    repeat split;
      match goal with |- Forall _ (if ?b then _ else _) => destruct b end;
      repeat constructor; apply prefix_append.
Qed.

Lemma candidate_key_order_witness :
  Ultimate._find_work_mapping "Fanny" "Mendelssohn Trio mvt." (a_world trio_table)
    = (Returned (Some fanny_mendelssohn_trio), a_world trio_table)
  ∧ Ultimate._find_work_mapping "Mozart" "Requiem" (a_world requiem_table)
    = (Returned (Some mozart_requiem), a_world requiem_table)
  ∧ Ultimate._find_work_mapping "Mozart" "Requiem" (a_world trio_table)
    = Ultimate.key_loop (Ultimate.composer_plus_keys "Mozart" "Requiem" Ultimate.key_words)
        (a_world trio_table).
Proof.
  pose proof (candidate_key_order "Fanny" "Mendelssohn Trio mvt." (a_world trio_table))
    as (_ & HA & _).
  pose proof (candidate_key_order "Mozart" "Requiem" (a_world requiem_table))
    as (_ & _ & HB & _).
  pose proof (candidate_key_order "Mozart" "Requiem" (a_world trio_table))
    as (_ & _ & _ & HC & _).
  split; [|split].
  - apply HA. vm_compute. reflexivity.
  - apply HB.
    + split; [vm_compute; reflexivity | no_good_match].
    + vm_compute. reflexivity.
  - apply HC.
    + split; [vm_compute; reflexivity | no_good_match].
    + split; [vm_compute; reflexivity | no_good_match].
Defined.

(** C4 as stated fails in [complete_solutions_processor]: the title-only
    key of "Requiem" is not among the keys of ("Mozart", "Requiem"). *)
Lemma complete_solutions_has_no_title_only_key :
  Ultimate.title_only "Requiem" = "requiem"
  ∧ CompleteSolutions.search_keys "Mozart" "Requiem" = ["mozart requiem"]
  ∧ "requiem" ∉ CompleteSolutions.search_keys "Mozart" "Requiem".
Proof.
  assert (H1 : CompleteSolutions.search_keys "Mozart" "Requiem" = ["mozart requiem"])
    by (vm_compute; reflexivity).
  split; [vm_compute; reflexivity|]. split; [exact H1|].
  rewrite H1. intros H. apply elem_of_cons in H as [H|H]; [discriminate H | inversion H].
Qed.

Lemma composer_plus_keys_inv c t words k :
  k ∈ Ultimate.composer_plus_keys c t words →
  ∃ word, word ∈ words ∧ PyStr.contains word (PyStr.lower t) = true
    ∧ k = PyStr.lower c +:+ " " +:+ word.
Proof.
  induction words as [|x words IH]; cbn [Ultimate.composer_plus_keys]; intros Hk.
  - inversion Hk.
  - destruct (PyStr.contains x (PyStr.lower t)) eqn:Hc.
    + apply elem_of_cons in Hk as [->|Hk].
      * exists x. split; [left | split; [exact Hc | reflexivity]].
      * destruct (IH Hk) as (word & Hin & Hrest). exists word. split; [right; exact Hin|].
        exact Hrest.
    + destruct (IH Hk) as (word & Hin & Hrest). exists word. split; [right; exact Hin|].
      exact Hrest.
Qed.

Lemma terms_of_inv c t words terms k :
  k ∈ terms_of c t (words, terms) →
  ∃ word term, word ∈ words ∧ PyStr.contains word (PyStr.lower t) = true
    ∧ term ∈ terms ∧ k = PyStr.lower c +:+ " " +:+ term.
Proof.
  unfold terms_of. cbn [fst snd].
  destruct (existsb _ words) eqn:He; [|intros Hk; inversion Hk].
  apply existsb_exists in He as (word & Hw & Hc). intros Hk.
  apply list_elem_of_fmap in Hk as (term & -> & Ht).
  exists word, term. split; [apply list_elem_of_In, Hw|]. split; [exact Hc|].
  split; [exact Ht | reflexivity].
Qed.

(** C5, as amended. [ultimate_csv_processor] makes the key
    "{composer} {word}", in lower case, for each of its nine key words
    that occurs in the lower-cased title, and no other key: every
    candidate key is the basic key, the title-only key or one of these.
    [complete_solutions_processor] follows the table [emitted_terms]: for
    each entry with a word that occurs in the lower-cased title it makes
    "{composer} {term}" for every term of the entry, so that "sonata" gives
    "{composer} piano sonata", and "fugue" or "wtc" give
    "{composer} well-tempered clavier" and "{composer} wtc"; and every
    candidate key is the basic key or one of these. *)
Theorem form_word_keys (c t : string) :
  (∀ word, word ∈ Ultimate.key_words →
     PyStr.contains word (PyStr.lower t) = true →
     (PyStr.lower c +:+ " " +:+ word) ∈ Ultimate.search_keys c t)
  ∧ (∀ words terms word term, (words, terms) ∈ emitted_terms →
       word ∈ words → PyStr.contains word (PyStr.lower t) = true → term ∈ terms →
       (PyStr.lower c +:+ " " +:+ term) ∈ CompleteSolutions.search_keys c t)
  ∧ (∀ k, k ∈ Ultimate.search_keys c t →
       k = Ultimate.basic_key c t ∨ k = Ultimate.title_only t
       ∨ ∃ word, word ∈ Ultimate.key_words
           ∧ PyStr.contains word (PyStr.lower t) = true
           ∧ k = PyStr.lower c +:+ " " +:+ word)
  ∧ (∀ k, k ∈ CompleteSolutions.search_keys c t →
       k = CompleteSolutions.basic_key c t
       ∨ ∃ words terms word term, (words, terms) ∈ emitted_terms
           ∧ word ∈ words ∧ PyStr.contains word (PyStr.lower t) = true
           ∧ term ∈ terms ∧ k = PyStr.lower c +:+ " " +:+ term).
Proof.
  split; [|split; [|split]].
  - intros word Hin Hc. unfold Ultimate.search_keys.
    apply elem_of_app. right. apply elem_of_app. right.
    apply composer_plus_keys_elem; assumption.
  - intros words terms word term He Hw Hc Ht. unfold CompleteSolutions.search_keys.
    right. rewrite key_terms_table. apply list_elem_of_In, in_concat.
    exists (terms_of c t (words, terms)). split.
    + apply list_elem_of_In, list_elem_of_fmap. exists (words, terms).
      split; [reflexivity | exact He].
    + apply list_elem_of_In, terms_of_elem with (word := word); assumption.
  - intros k Hk. unfold Ultimate.search_keys in Hk.
    apply elem_of_app in Hk as [Hk|Hk].
    + apply list_elem_of_singleton in Hk. left. exact Hk.
    + apply elem_of_app in Hk as [Hk|Hk].
      * apply list_elem_of_singleton in Hk. right. left. exact Hk.
      * right. right. apply composer_plus_keys_inv, Hk.
  - intros k Hk. unfold CompleteSolutions.search_keys in Hk.
    apply elem_of_cons in Hk as [Hk|Hk]; [left; exact Hk|]. right.
    rewrite key_terms_table in Hk. apply list_elem_of_In, in_concat in Hk as (l & Hl & Hkl).
    apply list_elem_of_In, list_elem_of_fmap in Hl as ([words terms] & -> & He).
    apply list_elem_of_In, terms_of_inv in Hkl as (word & term & Hw & Hc & Ht & ->).
    exists words, terms, word, term. split; [exact He|]. split; [exact Hw|].
    split; [exact Hc|]. split; [exact Ht | reflexivity].
Qed.

Lemma form_word_keys_witness :
  "haydn quartet" ∈ Ultimate.search_keys "Haydn" "String Quartet Op.76 No.3"
  ∧ "bach well-tempered clavier"
      ∈ CompleteSolutions.search_keys "Bach" "Prelude and Fugue in C"
  ∧ ("bach well-tempered clavier" ∉ Ultimate.search_keys "Bach" "Prelude and Fugue in C")
  ∧ ("mozart sonata" ∉ CompleteSolutions.search_keys "Mozart" "Piano Sonata K. 333").
Proof.
  pose proof (form_word_keys "Haydn" "String Quartet Op.76 No.3") as [HU _].
  pose proof (form_word_keys "Bach" "Prelude and Fugue in C") as (_ & HC & HUo & _).
  pose proof (form_word_keys "Mozart" "Piano Sonata K. 333") as (_ & _ & _ & HCo).
  split; [|split; [|split]].
  - apply (HU "quartet").
    + unfold Ultimate.key_words. do 4 right. left.
    + vm_compute. reflexivity.
  - apply (HC (["fugue"; "wtc"]) (["well-tempered clavier"; "wtc"]) "fugue"
              "well-tempered clavier").
    + unfold emitted_terms. do 6 right. left.
    + left.
    + vm_compute. reflexivity.
    + left.
  - intros Hk. destruct (HUo _ Hk) as [H|[H|(word & Hin & _ & H)]];
      [discriminate H | discriminate H |].
    unfold Ultimate.key_words in Hin.
    repeat (apply elem_of_cons in Hin as [->|Hin]; [discriminate H|]). inversion Hin.
  - intros Hk. destruct (HCo _ Hk) as [H|(words & terms & word & term & He & _ & _ & Ht & H)];
      [discriminate H|].
    unfold emitted_terms in He.
    repeat (apply elem_of_cons in He as [[= -> ->]|He];
            [repeat (apply elem_of_cons in Ht as [->|Ht]; [discriminate H|]); inversion Ht|]).
    inversion He.
Defined.

(** C5 as stated fails: with "sonata" in the title
    [complete_solutions_processor] makes "mozart piano sonata" and not
    "mozart sonata", and with "fugue" in the title [ultimate_csv_processor]
    makes "bach fugue" and no "bach well-tempered clavier". *)
Lemma sonata_gives_piano_sonata :
  PyStr.contains "sonata" (PyStr.lower "Piano Sonata K. 333") = true
  ∧ CompleteSolutions.search_keys "Mozart" "Piano Sonata K. 333"
    = ["mozart piano sonata k. 333"; "mozart piano sonata"]
  ∧ ("mozart sonata" ∉ CompleteSolutions.search_keys "Mozart" "Piano Sonata K. 333")
  ∧ PyStr.contains "fugue" (PyStr.lower "Prelude and Fugue in C") = true
  ∧ Ultimate.search_keys "Bach" "Prelude and Fugue in C"
    = ["bach prelude and fugue in c"; "prelude and fugue in c"; "bach prelude"; "bach fugue"]
  ∧ "bach well-tempered clavier" ∉ Ultimate.search_keys "Bach" "Prelude and Fugue in C".
Proof.
  assert (H1 : CompleteSolutions.search_keys "Mozart" "Piano Sonata K. 333"
               = ["mozart piano sonata k. 333"; "mozart piano sonata"])
    by (vm_compute; reflexivity).
  assert (H2 : Ultimate.search_keys "Bach" "Prelude and Fugue in C"
    = ["bach prelude and fugue in c"; "prelude and fugue in c"; "bach prelude"; "bach fugue"])
    by (vm_compute; reflexivity).
  split; [vm_compute; reflexivity|]. split; [exact H1|]. split.
  { rewrite H1. intros H.
    repeat (apply elem_of_cons in H as [H|H]; [discriminate H|]). inversion H. }
  split; [vm_compute; reflexivity|]. split; [exact H2|].
  rewrite H2. intros H.
  repeat (apply elem_of_cons in H as [H|H]; [discriminate H|]). inversion H.
Qed.

(** ** C6, C7, C8 and C10: a function of the table that reads it only *)

(** C6. Two calls of [_find_work_mapping] with the same composer and title,
    one after the other, return the same result, and so do two calls in
    worlds that have the same table, whatever else differs in them. *)
Theorem match_is_deterministic (c t : string) (w w2 : world) :
  (CompleteSolutions._find_work_mapping c t (CompleteSolutions._find_work_mapping c t w).2).1
    = (CompleteSolutions._find_work_mapping c t w).1
  ∧ (Ultimate._find_work_mapping c t (Ultimate._find_work_mapping c t w).2).1
    = (Ultimate._find_work_mapping c t w).1
  ∧ (work_mappings (self w) = work_mappings (self w2) →
     (CompleteSolutions._find_work_mapping c t w).1
       = (CompleteSolutions._find_work_mapping c t w2).1
     ∧ (Ultimate._find_work_mapping c t w).1 = (Ultimate._find_work_mapping c t w2).1).
Proof.
  split; [|split].
  - rewrite (cs_find_run c t w). cbn [fst snd]. rewrite (cs_find_run c t w). reflexivity.
  - rewrite (ult_find_run c t w). cbn [fst snd]. rewrite (ult_find_run c t w). reflexivity.
  - intros Htable. rewrite !cs_find_run, !ult_find_run. cbn [fst]. rewrite Htable.
    split; reflexivity.
Qed.

Lemma match_is_deterministic_witness :
  (CompleteSolutions._find_work_mapping "Bach" "Gavottes" (a_world suite_table)).1
    = (CompleteSolutions._find_work_mapping "Bach" "Gavottes"
         {| self := {| session_headers := []; work_mappings := suite_table |};
            logged := [LogInfo 3 "works.csv"] |}).1
  ∧ (Ultimate._find_work_mapping "Bach" "Gavottes" (a_world suite_table)).1
    = (Ultimate._find_work_mapping "Bach" "Gavottes"
         {| self := {| session_headers := []; work_mappings := suite_table |};
            logged := [LogInfo 3 "works.csv"] |}).1.
Proof.
  refine (proj2 (proj2 (match_is_deterministic "Bach" "Gavottes" (a_world suite_table)
    {| self := {| session_headers := []; work_mappings := suite_table |};
       logged := [LogInfo 3 "works.csv"] |})) _).
  reflexivity.
Defined.

(** C7. [_find_work_mapping] never raises: for every composer, title and
    world it returns, and what it returns is [None] or a record of the
    table. *)
Theorem match_never_raises (c t : string) (w : world) :
  (∃ r, (CompleteSolutions._find_work_mapping c t w).1 = Returned r
        ∧ (r = None ∨ ∃ k m, r = Some m ∧ (k, m) ∈ work_mappings (self w)))
  ∧ (∃ r, (Ultimate._find_work_mapping c t w).1 = Returned r
          ∧ (r = None ∨ ∃ k m, r = Some m ∧ (k, m) ∈ work_mappings (self w))).
Proof.
  split.
  - rewrite cs_find_run. eexists. split; [reflexivity|]. unfold cs_result.
    destruct (first_some (PyDict.get _) _) as [m|] eqn:He.
    + right. apply first_some_Some in He as (k & _ & Hk).
      exists k, m. split; [reflexivity | apply get_elem_of, Hk].
    + destruct (first_some (strong_hit _) _) as [m|] eqn:Hs; [right | left; reflexivity].
      apply first_some_Some in Hs as (sk & _ & Hhit).
      apply strong_hit_Some in Hhit as (mk & Hin & _). eauto.
  - rewrite ult_find_run. eexists. split; [reflexivity|].
    destruct (first_some _ _) as [m|] eqn:He; [right | left; reflexivity].
    apply first_some_Some in He as (sk & _ & Hhit).
    apply key_hit_Some in Hhit as (mk & Hin). eauto.
Qed.

(** C8. [_find_work_mapping] leaves the world as it found it: the table,
    with every key and record, the session and the log are the same after
    the call as before. *)
Theorem match_leaves_table_unchanged (c t : string) (w : world) :
  (CompleteSolutions._find_work_mapping c t w).2 = w
  ∧ (Ultimate._find_work_mapping c t w).2 = w.
Proof.
  split; [rewrite cs_find_run | rewrite ult_find_run]; reflexivity.
Qed.

(** C10. Neither match test divides by zero: [_is_strong_match] and
    [_is_good_match] return a boolean for every pair of strings, the
    division being reached only with at least two words in common, all of
    them words of the table key. *)
Theorem match_test_never_divides_by_zero (sk mk : string) (w : world) :
  (∃ b, CompleteSolutions._is_strong_match sk mk w = (Returned b, w))
  ∧ (∃ b, Ultimate._is_good_match sk mk w = (Returned b, w))
  ∧ truediv (CompleteSolutions.overlap sk mk) 0 w = (Raised ZeroDivisionError, w).
Proof.
  split; [|split]; [eexists; apply strong_match_run | eexists; apply good_match_run |].
  reflexivity.
Qed.

(** ** C9: row numbers *)

Lemma omap_cons_eq {A B} (f : A → option B) (x : A) (l : list A) :
  omap f (x :: l) = match f x with Some y => y :: omap f l | None => omap f l end.
Proof. reflexivity. Qed.

Lemma read_rows_run rows : ∀ n works w,
  CompleteSolutions.read_rows n rows works w
  = (Returned (works ++ omap (work_of (work_mappings (self w))) (numbered n rows)), w).
Proof.
  induction rows as [|row rows IH]; intros n works w.
  - cbn. rewrite app_nil_r. reflexivity.
  - cbn [CompleteSolutions.read_rows numbered]. rewrite omap_cons_eq.
    unfold work_of at 1. cbn [fst snd].
    destruct row as [|r0 [|r1 row]]; cbn [valid_row]; try (rewrite IH; reflexivity).
    destruct (negb _ && negb _).
    + rewrite bind_run, cs_find_run, IH, <- app_assoc. reflexivity.
    + rewrite IH. reflexivity.
Qed.

Lemma entry_of_work_of table p :
  entry_of <$> work_of table p = row_entry 0 p.
Proof.
  unfold work_of, row_entry. destruct (valid_row p.2) as [[c t]|]; [|reflexivity].
  cbn. unfold entry_of. cbn. rewrite Nat.sub_0_r. reflexivity.
Qed.

Lemma entries_of_works table (l : list (nat * list string)) :
  entry_of <$> omap (work_of table) l = omap (row_entry 0) l.
Proof.
  induction l as [|p l IH]; [reflexivity|]. rewrite !omap_cons_eq.
  rewrite <- (entry_of_work_of table p).
  destruct (work_of table p); cbn [fmap option_fmap option_map]; [rewrite fmap_cons|];
    rewrite IH; reflexivity.
Qed.

Lemma row_entry_shift rows : ∀ n,
  omap (row_entry 1) (numbered (S n) rows) = omap (row_entry 0) (numbered n rows).
Proof.
  induction rows as [|row rows IH]; intros n; [reflexivity|].
  cbn [numbered]. rewrite !omap_cons_eq, IH. unfold row_entry. cbn [fst snd].
  destruct (valid_row row) as [[c t]|]; [|reflexivity].
  replace (S n - 1) with (n - 0) by lia. reflexivity.
Qed.

(** C9, as amended. [read_csv_works] returns, for a file that can be opened,
    one entry for each row with a non-blank composer and title among the
    rows read after the first row is dropped when the first line is ",";
    the row number of an entry is the 1-based position of its row among
    the rows read: its position in the file when no row is dropped, and
    that position less one when the first row is dropped. The processor
    is the same after the call. *)
Theorem row_numbers (fs : string → option CompleteSolutions.csv_source)
    (csv_file : string) (f : CompleteSolutions.csv_source) (w : world) :
  fs csv_file = Some f →
  ∃ works w',
    CompleteSolutions.read_csv_works fs csv_file w = (Returned works, w')
    ∧ self w' = self w
    ∧ entry_of <$> works
      = omap (row_entry (skipped f))
          (drop (skipped f) (numbered 1 (CompleteSolutions.records f))).
Proof.
  intros Hf. unfold CompleteSolutions.read_csv_works, try_except, skipped.
  rewrite bind_run. unfold CompleteSolutions.open. rewrite Hf. cbn [mret M_ret].
  rewrite bind_run.
  destruct (String.eqb _ ",").
  - destruct (CompleteSolutions.records f) as [|row rows].
    + cbn. eexists _, _. split; [reflexivity|]. split; reflexivity.
    + cbn [next]. rewrite bind_run. cbn [mret M_ret].
      rewrite bind_run, read_rows_run. cbn [app].
      eexists _, _. split; [reflexivity|]. split; [reflexivity|].
      cbn [numbered drop]. rewrite entries_of_works. symmetry. apply row_entry_shift.
  - cbn [mret M_ret]. rewrite bind_run, read_rows_run. cbn [app].
    eexists _, _. split; [reflexivity|]. split; [reflexivity|].
    cbn [drop]. apply entries_of_works.
Qed.

Lemma row_numbers_witness :
  ∃ works w',
    CompleteSolutions.read_csv_works a_file_system "works.csv" (a_world suite_table)
      = (Returned works, w')
    ∧ self w' = self (a_world suite_table)
    ∧ entry_of <$> works = [(1, "Mozart", "Symphony 40"); (3, "Bach", "Gavottes")].
Proof.
  destruct (row_numbers a_file_system "works.csv" header_source (a_world suite_table))
    as (works & w' & Hrun & Hself & Hrows); [reflexivity|].
  exists works, w'. split; [exact Hrun|]. split; [exact Hself|].
  rewrite Hrows. vm_compute. reflexivity.
Defined.

(** C9 as stated fails when the first row is dropped: the rows of
    ("Mozart", "Symphony 40") and ("Bach", " Gavottes ") are the second and
    the fourth of the file, and their entries carry the numbers 1 and 3. *)
Lemma dropped_first_row_shifts_row_numbers :
  numbered 1 (CompleteSolutions.records header_source)
    = [(1, [""; ""]); (2, ["Mozart"; "Symphony 40"]); (3, []); (4, ["Bach"; " Gavottes "])]
  ∧ entry_of <$>
      match (CompleteSolutions.read_csv_works a_file_system "works.csv"
               (a_world suite_table)).1 with
      | Returned works => works
      | Raised _ => []
      end
    = [(1, "Mozart", "Symphony 40"); (3, "Bach", "Gavottes")].
Proof. split; vm_compute; reflexivity. Qed.

(** ** Strings: lower case, words and stripping *)

Lemma lower_char_idempotent c : PyStr.lower_char (PyStr.lower_char c) = PyStr.lower_char c.
Proof. destruct c as [[] [] [] [] [] [] [] []]; vm_compute; reflexivity. Qed.

Lemma lower_idempotent s : PyStr.lower (PyStr.lower s) = PyStr.lower s.
Proof.
  induction s as [|c s IH]; [reflexivity|].
  cbn [PyStr.lower]. rewrite lower_char_idempotent, IH. reflexivity.
Qed.

Lemma append_cons x a b : String x a +:+ b = String x (a +:+ b).
Proof. reflexivity. Qed.

Lemma append_empty_r s : s +:+ "" = s.
Proof. induction s as [|c s IH]; [reflexivity|]. rewrite append_cons, IH. reflexivity. Qed.

Lemma append_assoc_s a b c : (a +:+ b) +:+ c = a +:+ (b +:+ c).
Proof.
  induction a as [|x a IH]; [reflexivity|]. rewrite !append_cons, IH. reflexivity.
Qed.

Lemma has_space_app a b : has_space (a +:+ b) = has_space a || has_space b.
Proof.
  induction a as [|x a IH]; [reflexivity|].
  rewrite append_cons. cbn [has_space]. rewrite IH, orb_assoc. reflexivity.
Qed.

Lemma is_empty_app_char a c : PyStr.is_empty (a +:+ String c "") = false.
Proof. destruct a; reflexivity. Qed.

Lemma split_from_words s : ∀ word,
  has_space word = false → Forall is_word (PyStr.split_from word s).
Proof.
  induction s as [|c s IH]; intros word Hw; cbn [PyStr.split_from].
  - destruct word as [|x word]; cbn; [constructor|].
    repeat constructor; [discriminate | exact Hw].
  - destruct (PyStr.isspace c) eqn:Hc.
    + destruct word as [|x word]; cbn [PyStr.is_empty].
      * apply IH. reflexivity.
      * constructor; [split; [discriminate | exact Hw] | apply IH; reflexivity].
    + apply IH. rewrite has_space_app, Hw. cbn. rewrite Hc. reflexivity.
Qed.

Lemma split_words s : Forall is_word (PyStr.split s).
Proof. apply split_from_words. reflexivity. Qed.

Lemma split_from_word w : ∀ acc s,
  has_space w = false → PyStr.split_from acc (w +:+ s) = PyStr.split_from (acc +:+ w) s.
Proof.
  induction w as [|c w IH]; intros acc s Hw.
  - change ("" +:+ s) with s. rewrite append_empty_r. reflexivity.
  - cbn [has_space] in Hw. apply orb_false_iff in Hw as [Hc Hw].
    rewrite append_cons. cbn [PyStr.split_from]. rewrite Hc.
    rewrite (IH _ _ Hw), append_assoc_s. reflexivity.
Qed.

Lemma split_join ws : Forall is_word ws → PyStr.split (PyStr.join " " ws) = ws.
Proof.
  unfold PyStr.split, PyStr.join.
  induction 1 as [|w ws [Hne Hw] Hws IH]; [reflexivity|].
  cbn [String.concat]. destruct ws as [|w2 ws].
  - rewrite <- (append_empty_r w) at 1. rewrite split_from_word by exact Hw.
    change ("" +:+ w) with w. cbn [PyStr.split_from].
    destruct w; [contradiction | reflexivity].
  - rewrite split_from_word by exact Hw. change ("" +:+ w) with w.
    change (" " +:+ String.concat " " (w2 :: ws))
      with (String " " (String.concat " " (w2 :: ws))).
    cbn [PyStr.split_from]. change (PyStr.isspace " ") with true. cbn iota.
    destruct w; [contradiction|]. cbn [PyStr.is_empty].
    rewrite IH. reflexivity.
Qed.

Lemma join_split_idempotent s :
  PyStr.join " " (PyStr.split (PyStr.join " " (PyStr.split s))) = PyStr.join " " (PyStr.split s).
Proof. rewrite split_join; [reflexivity | apply split_words]. Qed.

Lemma rstrip_idempotent s : PyStr.rstrip (PyStr.rstrip s) = PyStr.rstrip s.
Proof.
  induction s as [|c s IH]; [reflexivity|].
  cbn [PyStr.rstrip]. destruct (PyStr.isspace c && PyStr.is_empty (PyStr.rstrip s)) eqn:H.
  - reflexivity.
  - cbn [PyStr.rstrip]. rewrite IH, H. reflexivity.
Qed.

Lemma lstrip_head s :
  PyStr.lstrip s = "" ∨ ∃ c r, PyStr.lstrip s = String c r ∧ PyStr.isspace c = false.
Proof.
  induction s as [|c s IH]; [left; reflexivity|].
  cbn [PyStr.lstrip]. destruct (PyStr.isspace c) eqn:Hc; [exact IH|].
  right. eauto.
Qed.

Lemma strip_idempotent s : PyStr.strip (PyStr.strip s) = PyStr.strip s.
Proof.
  unfold PyStr.strip. destruct (lstrip_head s) as [->|(c & r & -> & Hc)]; [reflexivity|].
  cbn [PyStr.rstrip]. rewrite Hc. cbn [andb PyStr.lstrip]. rewrite Hc.
  change (PyStr.rstrip (String c (PyStr.rstrip r)))
    with (if PyStr.isspace c && PyStr.is_empty (PyStr.rstrip (PyStr.rstrip r))
          then "" else String c (PyStr.rstrip (PyStr.rstrip r))).
  rewrite Hc, rstrip_idempotent. reflexivity.
Qed.

(** ** Further properties of the matcher *)

Lemma cs_search_keys_lower c c' t t' :
  PyStr.lower c = PyStr.lower c' → PyStr.lower t = PyStr.lower t' →
  CompleteSolutions.search_keys c t = CompleteSolutions.search_keys c' t'.
Proof.
  intros Hc Ht. unfold CompleteSolutions.search_keys, CompleteSolutions.basic_key,
    CompleteSolutions.key_terms. rewrite Hc, Ht. reflexivity.
Qed.

Lemma ult_composer_plus_keys_lower c c' t t' words :
  PyStr.lower c = PyStr.lower c' → PyStr.lower t = PyStr.lower t' →
  Ultimate.composer_plus_keys c t words = Ultimate.composer_plus_keys c' t' words.
Proof.
  intros Hc Ht. induction words as [|word words IH]; [reflexivity|].
  cbn [Ultimate.composer_plus_keys]. rewrite Hc, Ht, IH. reflexivity.
Qed.

Lemma ult_search_keys_lower c c' t t' :
  PyStr.lower c = PyStr.lower c' → PyStr.lower t = PyStr.lower t' →
  Ultimate.search_keys c t = Ultimate.search_keys c' t'.
Proof.
  intros Hc Ht. unfold Ultimate.search_keys, Ultimate.basic_key, Ultimate.title_only.
  rewrite (ult_composer_plus_keys_lower c c' t t' _ Hc Ht), Hc, Ht. reflexivity.
Qed.

(** X1. Upper and lower case are not told apart: two queries whose
    composers agree in lower case and whose titles agree in lower case get
    the same result from [_find_work_mapping], in both processors. *)
Theorem matching_ignores_case (c c' t t' : string) (w : world) :
  PyStr.lower c = PyStr.lower c' → PyStr.lower t = PyStr.lower t' →
  CompleteSolutions._find_work_mapping c t w = CompleteSolutions._find_work_mapping c' t' w
  ∧ Ultimate._find_work_mapping c t w = Ultimate._find_work_mapping c' t' w.
Proof.
  intros Hc Ht. split.
  - rewrite !cs_find_run. unfold cs_result.
    rewrite (cs_search_keys_lower c c' t t' Hc Ht). reflexivity.
  - rewrite !ult_find_run. rewrite (ult_search_keys_lower c c' t t' Hc Ht). reflexivity.
Qed.

Lemma matching_ignores_case_witness :
  CompleteSolutions._find_work_mapping "BACH" "GAVOTTES" (a_world suite_table)
    = CompleteSolutions._find_work_mapping "bach" "Gavottes" (a_world suite_table)
  ∧ Ultimate._find_work_mapping "BACH" "GAVOTTES" (a_world suite_table)
    = Ultimate._find_work_mapping "bach" "Gavottes" (a_world suite_table).
Proof.
  apply (matching_ignores_case "BACH" "bach" "GAVOTTES" "Gavottes"); reflexivity.
Defined.

(** X2. The basic key of both processors and the title-only key of
    [ultimate_csv_processor] are normalised: splitting one at white space
    and joining the words with single spaces gives the key back, and every
    word so obtained is non-empty and free of white space, whatever the
    spacing of the composer and the title. *)
Theorem basic_keys_are_normalized (c t : string) :
  Forall (λ k, PyStr.join " " (PyStr.split k) = k ∧ Forall is_word (PyStr.split k))
    [CompleteSolutions.basic_key c t; Ultimate.basic_key c t; Ultimate.title_only t].
Proof.
  repeat constructor;
    try (unfold CompleteSolutions.basic_key, Ultimate.basic_key, Ultimate.title_only;
         apply join_split_idempotent);
    apply split_words.
Qed.

Lemma strong_hit_None table sk :
  strong_hit table sk = None ↔ no_strong_entry table sk.
Proof.
  unfold strong_hit, no_strong_entry. rewrite first_some_None. split.
  - intros H mk m Hin Hs. specialize (H (mk, m) Hin). cbn [fst snd] in H.
    rewrite bool_decide_eq_true_2 in H by exact Hs. discriminate.
  - intros H [mk m] Hin. cbn [fst snd].
    rewrite bool_decide_eq_false_2; [reflexivity | eapply H, Hin].
Qed.

Lemma key_hit_None table k : key_hit table k = None ↔ misses table k.
Proof.
  split; [|apply misses_key_hit].
  unfold key_hit, misses. destruct (PyDict.get table k); [discriminate|].
  intros H. split; [reflexivity|]. intros mk m Hin Hg.
  unfold good_hit in H. rewrite first_some_None in H. specialize (H (mk, m) Hin).
  cbn [fst snd] in H. rewrite bool_decide_eq_true_2 in H by exact Hg. discriminate.
Qed.

(** X3. [_find_work_mapping] returns [None] exactly when every candidate key
    misses: in [complete_solutions_processor], no candidate key is a key of
    the table and none passes [_is_strong_match] with a key of the table;
    in [ultimate_csv_processor], the same with [_is_good_match]. *)
Theorem no_match_exactly_when_nothing_hits (c t : string) (w : world) :
  (CompleteSolutions._find_work_mapping c t w = (Returned None, w)
   ↔ ∀ k, k ∈ CompleteSolutions.search_keys c t →
       PyDict.get (work_mappings (self w)) k = None
       ∧ no_strong_entry (work_mappings (self w)) k)
  ∧ (Ultimate._find_work_mapping c t w = (Returned None, w)
     ↔ ∀ k, k ∈ Ultimate.search_keys c t → misses (work_mappings (self w)) k).
Proof.
  split.
  - rewrite cs_find_run. unfold cs_result. split.
    + intros H k Hk.
      destruct (first_some (PyDict.get _) _) eqn:He; [discriminate|].
      destruct (first_some (strong_hit _) _) eqn:Hs; [discriminate|].
      rewrite first_some_None in He. rewrite first_some_None in Hs.
      split; [apply He, Hk | apply strong_hit_None, Hs, Hk].
    + intros H.
      assert (He : first_some (PyDict.get (work_mappings (self w)))
                     (CompleteSolutions.search_keys c t) = None).
      { apply first_some_None. intros k Hk. apply H, Hk. }
      assert (Hs : first_some (strong_hit (work_mappings (self w)))
                     (CompleteSolutions.search_keys c t) = None).
      { apply first_some_None. intros k Hk. apply strong_hit_None, H, Hk. }
      rewrite He, Hs. reflexivity.
  - rewrite ult_find_run. split.
    + intros H k Hk. apply key_hit_None.
      destruct (first_some _ _) eqn:He; [discriminate|].
      rewrite first_some_None in He. apply He, Hk.
    + intros H. replace (first_some _ _) with (@None WorkRecord); [reflexivity|].
      symmetry. apply first_some_None. intros k Hk. apply key_hit_None, H, Hk.
Qed.

Lemma no_match_exactly_when_nothing_hits_witness :
  CompleteSolutions._find_work_mapping "Haydn" "Piano Sonata" (a_world mozart_table)
    = (Returned None, a_world mozart_table)
  ∧ Ultimate._find_work_mapping "Haydn" "Piano Sonata" (a_world mozart_table)
    = (Returned None, a_world mozart_table).
Proof.
  pose proof (no_match_exactly_when_nothing_hits "Haydn" "Piano Sonata" (a_world mozart_table))
    as [[_ HC] [_ HU]].
  split.
  - apply HC. intros k Hk.
    change (k ∈ ["haydn piano sonata"; "haydn piano sonata"]) in Hk.
    repeat (apply elem_of_cons in Hk as [->|Hk]);
      try (split; [reflexivity | no_strong_match]).
    inversion Hk.
  - apply HU. intros k Hk.
    change (k ∈ ["haydn piano sonata"; "piano sonata"; "haydn sonata"]) in Hk.
    repeat (apply elem_of_cons in Hk as [->|Hk]);
      try (split; [reflexivity | no_good_match]).
    inversion Hk.
Defined.

Lemma strong_hit_first earlier mk m later sk :
  (∀ mk' m', (mk', m') ∈ earlier → ¬ CompleteSolutions.strong sk mk') →
  CompleteSolutions.strong sk mk →
  strong_hit (earlier ++ (mk, m) :: later) sk = Some m.
Proof.
  intros He Hs. unfold strong_hit. apply first_some_app_hit.
  - intros [mk' m'] Hin. cbn [fst snd].
    rewrite bool_decide_eq_false_2; [reflexivity | eapply He, Hin].
  - cbn [fst snd]. rewrite bool_decide_eq_true_2 by exact Hs. reflexivity.
Qed.

Lemma good_hit_first earlier mk m later sk :
  (∀ mk' m', (mk', m') ∈ earlier → ¬ Ultimate.good sk mk') →
  Ultimate.good sk mk →
  good_hit (earlier ++ (mk, m) :: later) sk = Some m.
Proof.
  intros He Hs. unfold good_hit. apply first_some_app_hit.
  - intros [mk' m'] Hin. cbn [fst snd].
    rewrite bool_decide_eq_false_2; [reflexivity | eapply He, Hin].
  - cbn [fst snd]. rewrite bool_decide_eq_true_2 by exact Hs. reflexivity.
Qed.

(** X4. Which entry the word-overlap path takes. When the candidate keys
    before [sk] find nothing, [sk] matches the key [mk] and no entry before
    that of [mk] in the table, the record of [mk] is returned, whatever
    comes later in the table: in [complete_solutions_processor] provided
    that no candidate key is a key of the table, in [ultimate_csv_processor]
    provided that [sk] is not one. *)
Theorem fuzzy_path_takes_first_entry (c t : string) (w : world)
    (before after : list string) (sk : string)
    (earlier later : list (string * WorkRecord)) (mk : string) (m : WorkRecord) :
  work_mappings (self w) = earlier ++ (mk, m) :: later →
  (CompleteSolutions.search_keys c t = before ++ sk :: after →
   (∀ k, k ∈ CompleteSolutions.search_keys c t →
      PyDict.get (work_mappings (self w)) k = None) →
   (∀ k, k ∈ before → no_strong_entry (work_mappings (self w)) k) →
   (∀ mk' m', (mk', m') ∈ earlier → ¬ CompleteSolutions.strong sk mk') →
   CompleteSolutions.strong sk mk →
   CompleteSolutions._find_work_mapping c t w = (Returned (Some m), w))
  ∧ (Ultimate.search_keys c t = before ++ sk :: after →
     (∀ k, k ∈ before → misses (work_mappings (self w)) k) →
     PyDict.get (work_mappings (self w)) sk = None →
     (∀ mk' m', (mk', m') ∈ earlier → ¬ Ultimate.good sk mk') →
     Ultimate.good sk mk →
     Ultimate._find_work_mapping c t w = (Returned (Some m), w)).
Proof.
  intros Htable. split.
  - intros Hkeys Hexact Hbefore Hearlier Hstrong.
    rewrite cs_find_run. unfold cs_result.
    replace (first_some (PyDict.get _) _) with (@None WorkRecord)
      by (symmetry; apply first_some_None; exact Hexact).
    rewrite Hkeys. rewrite (first_some_app_hit _ before sk after m); [reflexivity | | ].
    + intros k Hk. apply strong_hit_None, Hbefore, Hk.
    + rewrite Htable. apply strong_hit_first; assumption.
  - intros Hkeys Hbefore Hget Hearlier Hgood.
    rewrite ult_find_run, Hkeys.
    rewrite (first_some_app_hit _ before sk after m); [reflexivity | | ].
    + intros k Hk. apply misses_key_hit, Hbefore, Hk.
    + unfold key_hit. rewrite Hget, Htable. apply good_hit_first; assumption.
Qed.

Lemma fuzzy_path_takes_first_entry_witness :
  CompleteSolutions._find_work_mapping "Mozart" "Symphony 40" (a_world two_symphonies)
    = (Returned (Some mozart_symphony_40), a_world two_symphonies)
  ∧ Ultimate._find_work_mapping "Mozart" "Symphony 40" (a_world two_symphonies)
    = (Returned (Some mozart_symphony_40), a_world two_symphonies).
Proof.
  pose proof (fuzzy_path_takes_first_entry "Mozart" "Symphony 40" (a_world two_symphonies)
    [] ["mozart symphony"] "mozart symphony 40"
    [] [("40 symphony mozart", beethoven_symphony_5)] "symphony mozart" mozart_symphony_40
    eq_refl) as [HC _].
  pose proof (fuzzy_path_takes_first_entry "Mozart" "Symphony 40" (a_world two_symphonies)
    [] ["symphony 40"; "mozart symphony"] "mozart symphony 40"
    [] [("40 symphony mozart", beethoven_symphony_5)] "symphony mozart" mozart_symphony_40
    eq_refl) as [_ HU].
  split.
  - apply HC.
    + vm_compute. reflexivity.
    + intros k Hk. change (k ∈ ["mozart symphony 40"; "mozart symphony"]) in Hk.
      repeat (apply elem_of_cons in Hk as [->|Hk]); try reflexivity. inversion Hk.
    + intros k Hk. inversion Hk.
    + intros mk' m' H. inversion H.
    + unfold CompleteSolutions.strong. vm_compute. lia.
  - apply HU.
    + vm_compute. reflexivity.
    + intros k Hk. inversion Hk.
    + reflexivity.
    + intros mk' m' H. inversion H.
    + unfold Ultimate.good. vm_compute. lia.
Defined.

(** X5. Both match tests are monotone in the words of the search key: a
    table key matched by a search key is matched by every search key with
    at least the same counted words. And a key with at least 2 counted
    words matches itself. *)
Theorem extra_query_words_keep_the_match (sk sk' mk : string) (w : world) :
  (CompleteSolutions.key_tokens sk ⊆ CompleteSolutions.key_tokens sk' →
   CompleteSolutions._is_strong_match sk mk w = (Returned true, w) →
   CompleteSolutions._is_strong_match sk' mk w = (Returned true, w))
  ∧ (PyStr.word_set sk ⊆ PyStr.word_set sk' →
     Ultimate._is_good_match sk mk w = (Returned true, w) →
     Ultimate._is_good_match sk' mk w = (Returned true, w))
  ∧ (2 ≤ size (CompleteSolutions.key_tokens mk) →
     CompleteSolutions._is_strong_match mk mk w = (Returned true, w))
  ∧ (2 ≤ size (PyStr.word_set mk) →
     Ultimate._is_good_match mk mk w = (Returned true, w)).
Proof.
  split; [|split; [|split]].
  - intros Hsub. rewrite !strong_match_run. intros [= H].
    apply bool_decide_eq_true_1 in H as [H2 H7].
    rewrite bool_decide_eq_true_2; [reflexivity|].
    unfold CompleteSolutions.strong, CompleteSolutions.overlap in *.
    pose proof (subseteq_size _ _
      (intersection_mono_r _ _ (CompleteSolutions.key_tokens mk) Hsub)).
    lia.
  - intros Hsub. rewrite !good_match_run. intros [= H].
    apply bool_decide_eq_true_1 in H as [H2 H7].
    rewrite bool_decide_eq_true_2; [reflexivity|].
    unfold Ultimate.good, Ultimate.overlap in *.
    pose proof (subseteq_size _ _ (intersection_mono_r _ _ (PyStr.word_set mk) Hsub)).
    lia.
  - intros H2. rewrite strong_match_run. rewrite bool_decide_eq_true_2; [reflexivity|].
    unfold CompleteSolutions.strong, CompleteSolutions.overlap.
    rewrite intersection_idemp_L. lia.
  - intros H2. rewrite good_match_run. rewrite bool_decide_eq_true_2; [reflexivity|].
    unfold Ultimate.good, Ultimate.overlap.
    rewrite intersection_idemp_L. lia.
Qed.

Lemma extra_query_words_keep_the_match_witness :
  CompleteSolutions._is_strong_match "bach orchestral suite 3 in d major gavotte"
    "bach orchestral suite no. 3" (a_world suite_table) = (Returned true, a_world suite_table)
  ∧ Ultimate._is_good_match "bach orchestral suite 3 in d major gavotte"
      "bach orchestral suite no. 3" (a_world suite_table) = (Returned true, a_world suite_table)
  ∧ CompleteSolutions._is_strong_match "bach gavottes" "bach gavottes" (a_world suite_table)
    = (Returned true, a_world suite_table)
  ∧ Ultimate._is_good_match "bach gavottes" "bach gavottes" (a_world suite_table)
    = (Returned true, a_world suite_table).
Proof.
  pose proof (extra_query_words_keep_the_match "bach orchestral suite 3"
    "bach orchestral suite 3 in d major gavotte" "bach orchestral suite no. 3"
    (a_world suite_table)) as (HC & HU & _).
  pose proof (extra_query_words_keep_the_match "" "" "bach gavottes" (a_world suite_table))
    as (_ & _ & HCs & HUs).
  split; [|split; [|split]].
  - apply HC; [|vm_compute; reflexivity].
    refine (bool_decide_unpack _ _). vm_compute. exact I.
  - apply HU; [|vm_compute; reflexivity].
    refine (bool_decide_unpack _ _). vm_compute. exact I.
  - apply HCs. vm_compute. lia.
  - apply HUs. vm_compute. lia.
Defined.

Lemma get_of_entry {V} (d : PyDict.t V) k v :
  NoDup d.*1 → (k, v) ∈ d → PyDict.get d k = Some v.
Proof.
  induction d as [|[k' v'] d IH]; intros Hnd Hin; [inversion Hin|].
  cbn [fmap list_fmap fst] in Hnd. apply NoDup_cons in Hnd as [Hk' Hnd].
  cbn [PyDict.get]. destruct (String.eqb k' k) eqn:He.
  - apply String.eqb_eq in He as ->.
    apply elem_of_cons in Hin as [[= ->]|Hin]; [reflexivity|].
    exfalso. apply Hk'. apply list_elem_of_fmap. exists (k, v). split; [reflexivity | exact Hin].
  - apply String.eqb_neq in He.
    apply elem_of_cons in Hin as [[= -> ->]|Hin]; [contradiction|]. apply IH; assumption.
Qed.

(** X6. In a table without repeated keys, an entry whose key is the basic
    key of the query is the one returned, in both processors: no other
    candidate key and no word overlap is consulted. *)
Theorem basic_key_entry_is_returned (c t : string) (w : world) (r : WorkRecord) :
  NoDup (work_mappings (self w)).*1 →
  ((CompleteSolutions.basic_key c t, r) ∈ work_mappings (self w) →
   CompleteSolutions._find_work_mapping c t w = (Returned (Some r), w))
  ∧ ((Ultimate.basic_key c t, r) ∈ work_mappings (self w) →
     Ultimate._find_work_mapping c t w = (Returned (Some r), w)).
Proof.
  intros Hnd. split; intros Hin; apply get_of_entry in Hin; try exact Hnd.
  - rewrite cs_find_run. unfold cs_result, CompleteSolutions.search_keys.
    cbn [first_some]. rewrite Hin. reflexivity.
  - rewrite ult_find_run. unfold Ultimate.search_keys. cbn [app first_some].
    unfold key_hit at 1. rewrite Hin. reflexivity.
Qed.

Lemma basic_key_entry_is_returned_witness :
  CompleteSolutions._find_work_mapping "Bach" "  Gavottes   mvt." (a_world suite_table)
    = (Returned (Some bach_gavottes), a_world suite_table)
  ∧ Ultimate._find_work_mapping "BACH" "Gavottes mvt." (a_world suite_table)
    = (Returned (Some bach_gavottes), a_world suite_table).
Proof.
  assert (Hnd : NoDup (work_mappings (self (a_world suite_table))).*1).
  { refine (bool_decide_unpack _ _). vm_compute. exact I. }
  split.
  - apply (proj1 (basic_key_entry_is_returned _ _ _ bach_gavottes Hnd)).
    vm_compute. right. left.
  - apply (proj2 (basic_key_entry_is_returned _ _ _ bach_gavottes Hnd)).
    vm_compute. right. left.
Defined.

(** ** Further properties of [read_csv_works] *)

Lemma read_csv_works_run fs csv_file w :
  ∃ r, CompleteSolutions.read_csv_works fs csv_file w
       = (Returned (read_result fs csv_file (work_mappings (self w))), with_log w r)
     ∧ match fs csv_file with
       | None => r = LogError csv_file (OSError csv_file)
       | Some f =>
           if (skipped f =? 1) && (length (CompleteSolutions.records f) =? 0)
           then r = LogError csv_file StopIteration
           else r = LogInfo (length (read_result fs csv_file (work_mappings (self w)))) csv_file
       end.
Proof.
  unfold CompleteSolutions.read_csv_works, try_except, read_result, skipped.
  rewrite bind_run. unfold CompleteSolutions.open.
  destruct (fs csv_file) as [f|]; [|eexists; split; reflexivity].
  cbn [mret M_ret]. rewrite bind_run.
  destruct (String.eqb _ ",").
  - destruct (CompleteSolutions.records f) as [|row rows].
    + eexists. split; reflexivity.
    + cbn [next]. rewrite bind_run. cbn [mret M_ret].
      rewrite bind_run, read_rows_run. cbn [app drop length Nat.eqb andb].
      eexists. split; reflexivity.
  - cbn [mret M_ret]. rewrite bind_run, read_rows_run. cbn [app drop Nat.eqb andb].
    eexists. split; reflexivity.
Qed.

(** X7. [read_csv_works] raises nothing: for every file system, file name
    and world it returns a list and adds one record to the log. For a file
    that cannot be opened the list is empty and the record is the error. *)
Theorem read_csv_works_never_raises (fs : string → option CompleteSolutions.csv_source)
    (csv_file : string) (w : world) :
  (∃ works r, CompleteSolutions.read_csv_works fs csv_file w
              = (Returned works, with_log w r))
  ∧ (fs csv_file = None →
     CompleteSolutions.read_csv_works fs csv_file w
     = (Returned [], with_log w (LogError csv_file (OSError csv_file)))).
Proof.
  destruct (read_csv_works_run fs csv_file w) as (r & Hrun & Hr). split.
  - eauto.
  - intros Hf. rewrite Hrun. unfold read_result. rewrite Hf in Hr |- *. rewrite Hr.
    reflexivity.
Qed.

Lemma read_csv_works_never_raises_witness :
  CompleteSolutions.read_csv_works a_file_system "missing.csv" (a_world suite_table)
  = (Returned [], with_log (a_world suite_table)
                    (LogError "missing.csv" (OSError "missing.csv"))).
Proof.
  apply (proj2 (read_csv_works_never_raises a_file_system "missing.csv"
                  (a_world suite_table))).
  reflexivity.
Defined.

Lemma work_of_Some table p x :
  work_of table p = Some x →
  ∃ r0 r1 rest, p.2 = r0 :: r1 :: rest
    ∧ PyStr.strip r0 ≠ "" ∧ PyStr.strip r1 ≠ ""
    ∧ x = {| CompleteSolutions.original_composer := PyStr.strip r0;
             CompleteSolutions.original_title := PyStr.strip r1;
             CompleteSolutions.csv_row := p.1;
             CompleteSolutions.mapped_work := cs_result table (PyStr.strip r0) (PyStr.strip r1) |}.
Proof.
  unfold work_of, valid_row. destruct p as [n row]. cbn [fst snd].
  destruct row as [|r0 [|r1 rest]]; try discriminate.
  destruct (PyStr.strip r0) as [|a0 s0] eqn:H0; [discriminate|].
  destruct (PyStr.strip r1) as [|a1 s1] eqn:H1; [discriminate|].
  cbn [PyStr.is_empty negb andb]. intros [= <-].
  exists r0, r1, rest. rewrite H0, H1. repeat split; discriminate.
Qed.

Lemma elem_of_omap_work table (l : list (nat * list string)) x :
  x ∈ omap (work_of table) l → ∃ p, p ∈ l ∧ work_of table p = Some x.
Proof. intros H. apply list_elem_of_omap in H. exact H. Qed.

(** X8. Every entry that [read_csv_works] returns has a composer and a title
    that are non-empty and stripped, and its [mapped_work] is what
    [_find_work_mapping] returns for this composer and title. *)
Theorem entries_hold_stripped_fields_and_the_match
    (fs : string → option CompleteSolutions.csv_source) (csv_file : string) (w w' : world)
    (works : list CompleteSolutions.work) :
  CompleteSolutions.read_csv_works fs csv_file w = (Returned works, w') →
  Forall (λ x,
      CompleteSolutions.original_composer x ≠ ""
      ∧ PyStr.strip (CompleteSolutions.original_composer x)
        = CompleteSolutions.original_composer x
      ∧ CompleteSolutions.original_title x ≠ ""
      ∧ PyStr.strip (CompleteSolutions.original_title x) = CompleteSolutions.original_title x
      ∧ CompleteSolutions._find_work_mapping (CompleteSolutions.original_composer x)
          (CompleteSolutions.original_title x) w
        = (Returned (CompleteSolutions.mapped_work x), w))
    works.
Proof.
  destruct (read_csv_works_run fs csv_file w) as (r & Hrun & _).
  rewrite Hrun. intros [= <- _]. apply Forall_forall. intros x Hx.
  unfold read_result in Hx. destruct (fs csv_file) as [f|]; [|inversion Hx].
  apply elem_of_omap_work in Hx as (p & _ & Hp).
  apply work_of_Some in Hp as (r0 & r1 & rest & _ & H0 & H1 & ->).
  cbn [CompleteSolutions.original_composer CompleteSolutions.original_title
       CompleteSolutions.mapped_work].
  rewrite !strip_idempotent, cs_find_run. repeat split; assumption.
Qed.

Lemma entries_hold_stripped_fields_and_the_match_witness :
  Forall (λ x,
      CompleteSolutions.original_composer x ≠ ""
      ∧ PyStr.strip (CompleteSolutions.original_composer x)
        = CompleteSolutions.original_composer x
      ∧ CompleteSolutions.original_title x ≠ ""
      ∧ PyStr.strip (CompleteSolutions.original_title x) = CompleteSolutions.original_title x
      ∧ CompleteSolutions._find_work_mapping (CompleteSolutions.original_composer x)
          (CompleteSolutions.original_title x) (a_world suite_table)
        = (Returned (CompleteSolutions.mapped_work x), a_world suite_table))
    [ {| CompleteSolutions.original_composer := "Composer";
         CompleteSolutions.original_title := "Title";
         CompleteSolutions.csv_row := 1;
         CompleteSolutions.mapped_work := None |};
      {| CompleteSolutions.original_composer := "Bach";
         CompleteSolutions.original_title := "Gavottes";
         CompleteSolutions.csv_row := 2;
         CompleteSolutions.mapped_work := Some bach_gavottes |};
      {| CompleteSolutions.original_composer := "Haydn";
         CompleteSolutions.original_title := "Piano Sonata";
         CompleteSolutions.csv_row := 5;
         CompleteSolutions.mapped_work := None |} ].
Proof.
  apply (entries_hold_stripped_fields_and_the_match padded_file_system "anthology.csv"
           (a_world suite_table)
           (with_log (a_world suite_table) (LogInfo 3 "anthology.csv"))).
  vm_compute. reflexivity.
Defined.

Lemma fields_of_works table rows : ∀ n,
  fields_of <$> omap (work_of table) (numbered n rows) = omap valid_row rows.
Proof.
  induction rows as [|row rows IH]; intros n; [reflexivity|].
  cbn [numbered]. rewrite !omap_cons_eq. unfold work_of at 1. cbn [fst snd].
  destruct (valid_row row) as [[c t]|]; [rewrite fmap_cons|]; rewrite IH; reflexivity.
Qed.

(** X9. The entries of [read_csv_works] are those of the rows with a
    non-empty composer and title after stripping, in the order of the file
    (after the first row when it is dropped), each row giving one entry;
    and the log then records the number of entries. *)
Theorem kept_rows_in_file_order (fs : string → option CompleteSolutions.csv_source)
    (csv_file : string) (f : CompleteSolutions.csv_source) (w w' : world)
    (works : list CompleteSolutions.work) :
  fs csv_file = Some f →
  CompleteSolutions.read_csv_works fs csv_file w = (Returned works, w') →
  fields_of <$> works = omap valid_row (drop (skipped f) (CompleteSolutions.records f))
  ∧ (skipped f ≤ length (CompleteSolutions.records f) →
     w' = with_log w (LogInfo (length works) csv_file)).
Proof.
  intros Hf. destruct (read_csv_works_run fs csv_file w) as (r & Hrun & Hr).
  rewrite Hrun. intros [= <- <-]. unfold read_result in *. rewrite Hf in *. split.
  - apply fields_of_works.
  - intros Hlen. destruct (skipped f =? 1) eqn:Hs; [|cbn [andb] in Hr; rewrite Hr; reflexivity].
    destruct (length (CompleteSolutions.records f) =? 0) eqn:Hl.
    + apply Nat.eqb_eq in Hs, Hl. lia.
    + cbn [andb] in Hr. rewrite Hr. reflexivity.
Qed.

Lemma kept_rows_in_file_order_witness :
  fields_of <$> read_result padded_file_system "anthology.csv" suite_table
    = [("Composer", "Title"); ("Bach", "Gavottes"); ("Haydn", "Piano Sonata")]
  ∧ with_log (a_world suite_table) (LogInfo 3 "anthology.csv")
    = with_log (a_world suite_table)
        (LogInfo (length (read_result padded_file_system "anthology.csv" suite_table))
           "anthology.csv").
Proof.
  destruct (kept_rows_in_file_order padded_file_system "anthology.csv" padded_source
              (a_world suite_table)
              (with_log (a_world suite_table) (LogInfo 3 "anthology.csv"))
              (read_result padded_file_system "anthology.csv" suite_table) eq_refl)
    as [Hrows Hlog].
  - vm_compute. reflexivity.
  - split; [rewrite Hrows; vm_compute; reflexivity | apply Hlog; vm_compute; lia].
Defined.

Lemma row_numbers_of_works table rows : ∀ n,
  StronglySorted lt (CompleteSolutions.csv_row <$> omap (work_of table) (numbered n rows))
  ∧ Forall (λ k, n ≤ k < n + length rows)
      (CompleteSolutions.csv_row <$> omap (work_of table) (numbered n rows)).
Proof.
  induction rows as [|row rows IH]; intros n.
  - split; constructor.
  - cbn [numbered length]. rewrite omap_cons_eq. destruct (IH (S n)) as [Hs Hb].
    assert (Hb' : Forall (λ k, n ≤ k < n + S (length rows))
              (CompleteSolutions.csv_row <$> omap (work_of table) (numbered (S n) rows))).
    { eapply Forall_impl; [exact Hb|]. cbn. intros k Hk. lia. }
    destruct (work_of table (n, row)) as [x|] eqn:Hw; [|split; assumption].
    apply work_of_Some in Hw as (r0 & r1 & rest & _ & _ & _ & ->).
    rewrite fmap_cons. cbn [CompleteSolutions.csv_row fst]. split.
    + constructor; [exact Hs|]. eapply Forall_impl; [exact Hb|]. cbn. intros k Hk. lia.
    + constructor; [lia | exact Hb'].
Qed.

Lemma StronglySorted_lt_NoDup (l : list nat) : StronglySorted lt l → NoDup l.
Proof.
  induction 1 as [|a l Hs IH Ha]; constructor; [|exact IH].
  intros Hin. rewrite Forall_forall in Ha. specialize (Ha a Hin). lia.
Qed.

(** X10. The row numbers of the entries that [read_csv_works] returns
    increase strictly, so that no two entries share one; they start at 1
    or above and, with the dropped first row counted, do not exceed the
    number of rows of the file. *)
Theorem row_numbers_increase (fs : string → option CompleteSolutions.csv_source)
    (csv_file : string) (w w' : world) (works : list CompleteSolutions.work) :
  CompleteSolutions.read_csv_works fs csv_file w = (Returned works, w') →
  StronglySorted lt (CompleteSolutions.csv_row <$> works)
  ∧ NoDup (CompleteSolutions.csv_row <$> works)
  ∧ Forall (λ x, 1 ≤ CompleteSolutions.csv_row x) works
  ∧ ∀ f, fs csv_file = Some f →
      Forall (λ x, CompleteSolutions.csv_row x + skipped f
                   ≤ length (CompleteSolutions.records f)) works.
Proof.
  destruct (read_csv_works_run fs csv_file w) as (r & Hrun & _).
  rewrite Hrun. intros [= <- _]. unfold read_result.
  destruct (fs csv_file) as [f|].
  - destruct (row_numbers_of_works (work_mappings (self w))
                (drop (skipped f) (CompleteSolutions.records f)) 1) as [Hs Hb].
    rewrite Forall_fmap in Hb.
    split; [exact Hs|]. split; [apply StronglySorted_lt_NoDup, Hs|]. split.
    + eapply Forall_impl; [exact Hb|]. cbn. intros x Hx. lia.
    + intros f' [= <-]. eapply Forall_impl; [exact Hb|]. cbn. intros x Hx.
      rewrite length_drop in Hx. lia.
  - repeat split; constructor.
Qed.

Lemma row_numbers_increase_witness :
  NoDup (CompleteSolutions.csv_row <$> read_result a_file_system "works.csv" suite_table)
  ∧ Forall (λ x, CompleteSolutions.csv_row x + 1 ≤ 4)
      (read_result a_file_system "works.csv" suite_table).
Proof.
  destruct (row_numbers_increase a_file_system "works.csv" (a_world suite_table)
              (with_log (a_world suite_table) (LogInfo 2 "works.csv"))
              (read_result a_file_system "works.csv" suite_table))
    as (_ & Hnd & _ & Hb).
  - vm_compute. reflexivity.
  - split; [exact Hnd | exact (Hb header_source eq_refl)].
Defined.

(** ** From the entries to the report *)

Lemma p_bind_run {A B} (m : Pipeline.P A) (f : A → Pipeline.P B) s :
  (m ≫= f) s =
  match m s with
  | (Returned a, s') => f a s'
  | (Raised e, s') => (Raised e, s')
  end.
Proof. reflexivity. Qed.

Lemma length_append_s a b : String.length (a +:+ b) = String.length a + String.length b.
Proof.
  induction a as [|x a IH]; [reflexivity|].
  rewrite append_cons. cbn [String.length]. rewrite IH. reflexivity.
Qed.

Lemma length_substring_le s : ∀ n m, String.length (String.substring n m s) ≤ m.
Proof.
  induction s as [|c s IH]; intros n m.
  - destruct n, m; cbn; lia.
  - destruct n as [|n].
    + destruct m as [|m]; cbn [String.substring String.length]; [lia|].
      specialize (IH 0 m). lia.
    + cbn [String.substring]. apply IH.
Qed.

(** X11. [_extract_pdf_description] gives at most 153 characters: a text of
    at most 150 characters is returned as it is, and a longer one is cut
    to its first 150 characters, followed by three dots. *)
Theorem description_is_cut_at_150 (sp : Pipeline.span) :
  String.length (Pipeline._extract_pdf_description sp) ≤ 153
  ∧ (∀ text, Pipeline.parent_text sp = Some text → String.length text ≤ 150 →
       Pipeline._extract_pdf_description sp = text)
  ∧ (∀ text, Pipeline.parent_text sp = Some text → 150 < String.length text →
       Pipeline._extract_pdf_description sp = String.substring 0 150 text +:+ "..."
       ∧ String.prefix (String.substring 0 150 text) text = true).
Proof.
  unfold Pipeline._extract_pdf_description. split; [|split].
  - destruct (Pipeline.parent_text sp) as [text|]; [|cbn; lia].
    destruct (150 <? String.length text) eqn:H.
    + rewrite length_append_s. pose proof (length_substring_le text 0 150). cbn. lia.
    + apply Nat.ltb_ge in H. lia.
  - intros text -> H. apply Nat.ltb_ge in H. rewrite H. reflexivity.
  - intros text -> H. apply Nat.ltb_lt in H. rewrite H. split; [reflexivity|].
    clear H. generalize 150. induction text as [|c text IH]; intros n.
    + destruct n; reflexivity.
    + destruct n as [|n]; [reflexivity|]. cbn [String.substring String.prefix].
      destruct (ascii_dec c c); [apply IH | contradiction].
Qed.

Lemma description_is_cut_at_150_witness :
  Pipeline._extract_pdf_description
    {| Pipeline.find_a := None; Pipeline.parent_text := Some "Complete Score, 1.2 MB" |}
  = "Complete Score, 1.2 MB".
Proof.
  apply (proj1 (proj2 (description_is_cut_at_150
    {| Pipeline.find_a := None; Pipeline.parent_text := Some "Complete Score, 1.2 MB" |}))).
  - reflexivity.
  - vm_compute. lia.
Defined.

Lemma Zpos_of_nat n : 0 < n → Z.pos (Pos.of_nat n) = Z.of_nat n.
Proof.
  destruct n as [|n]; [lia|]. intros _.
  rewrite <- Pos.of_nat_succ, Zpos_P_of_succ_nat. lia.
Qed.

Lemma filter_length_le {A} (P Q : A → Prop) `{∀ x, Decision (P x)} `{∀ x, Decision (Q x)}
    (l : list A) :
  Forall (λ x, P x → Q x) l → length (filter P l) ≤ length (filter Q l).
Proof.
  induction 1 as [|x l Hx Hl IH]; [reflexivity|].
  rewrite !filter_cons. destruct (decide (P x)) as [HP|HP].
  - rewrite decide_True by (apply Hx, HP). cbn. lia.
  - destruct (decide (Q x)); cbn; lia.
Qed.

Lemma counts_of_consistent ps :
  Forall consistent ps →
  Pipeline.valid_urls ps ≤ Pipeline.mapped_works ps
  ∧ Pipeline.mapped_works ps ≤ Pipeline.total_works ps
  ∧ Pipeline.total_pdfs ps ≤ 3 * Pipeline.valid_urls ps.
Proof.
  intros Hc. unfold Pipeline.valid_urls, Pipeline.mapped_works, Pipeline.total_works,
    Pipeline.total_pdfs. split; [|split].
  - apply filter_length_le. eapply Forall_impl; [exact Hc|]. cbn.
    intros p (_ & _ & H & _). exact H.
  - apply length_filter.
  - induction Hc as [|p ps Hp Hps IH]; [cbn; lia|].
    rewrite fmap_cons, filter_cons. cbn [sum_list sum_list_with].
    destruct Hp as (Hf & Hl & _ & Hv & _).
    destruct (decide (Pipeline.url_valid p = true)) as [Ht|Ht].
    + cbn [length]. fold (sum_list (Pipeline.pdf_links_found <$> ps)).
      unfold sum_list, id in *. rewrite Hf. lia.
    + apply not_true_is_false in Ht. fold (sum_list (Pipeline.pdf_links_found <$> ps)).
      unfold sum_list, id in *. rewrite Hf, (Hv Ht). cbn [length]. lia.
Qed.

Lemma success_rate_run ps w :
  ∃ q, Pipeline.success_rate ps w = (Returned q, w)
     ∧ Qle (inject_Z 0) q ∧ Qle q (inject_Z 100).
Proof.
  unfold Pipeline.success_rate.
  assert (Hv : Pipeline.valid_urls ps ≤ Pipeline.total_works ps) by apply length_filter.
  destruct (0 <? Pipeline.total_works ps) eqn:Ht.
  - apply Nat.ltb_lt in Ht. rewrite bind_run, truediv_run by exact Ht.
    eexists. split; [reflexivity|].
    unfold Qle, Qmult, inject_Z. cbn [Qnum Qden].
    rewrite Pos2Z.inj_mul, Zpos_of_nat by exact Ht. split; lia.
  - eexists. split; [reflexivity|]. unfold Qle, inject_Z. cbn. split; lia.
Qed.

Lemma selected_nil {A} (max_works : option Z) : selected max_works (@nil A) = [].
Proof.
  unfold selected, Pipeline.slice_to. destruct max_works as [n|]; [|reflexivity].
  destruct (n =? 0)%Z; [reflexivity|]. destruct (0 <=? n)%Z; apply take_nil.
Qed.

Lemma main_statistics_run works w :
  works ≠ [] → ∃ r, Pipeline.main_statistics works w = (Returned r, w).
Proof.
  intros Hne. unfold Pipeline.main_statistics.
  assert (Ht : 0 < Pipeline.total_works works)
    by (destruct works; [contradiction | cbn; lia]).
  rewrite bind_run, truediv_run by exact Ht.
  rewrite bind_run, truediv_run by exact Ht.
  rewrite bind_run. destruct (0 <? Pipeline.valid_urls works) eqn:Hv.
  - apply Nat.ltb_lt in Hv. rewrite bind_run, truediv_run by exact Hv.
    cbn [mret M_ret]. rewrite bind_run, truediv_run by exact Ht. eexists. reflexivity.
  - cbn [mret M_ret]. rewrite bind_run, truediv_run by exact Ht. eexists. reflexivity.
Qed.

Section PipelineMethods.
Variable urljoin : string → string → string.
Variable _extract_file_size : Pipeline.span → string.

Lemma collect_links_bound limit spans : ∀ acc,
  (Z.of_nat (length acc) < limit)%Z ∨ acc = [] →
  (Z.of_nat (length (Pipeline.collect_links urljoin _extract_file_size limit spans acc))
   ≤ Z.max limit 1)%Z.
Proof.
  induction spans as [|sp spans IH]; intros acc Hacc; cbn [Pipeline.collect_links].
  - destruct Hacc as [H| ->]; cbn; lia.
  - destruct (Pipeline.find_a sp) as [link|]; [|apply IH, Hacc].
    destruct (Pipeline.href link) as [h|]; [|apply IH, Hacc].
    destruct (negb _ && _); [|apply IH, Hacc].
    destruct (limit <=? _)%Z eqn:Hl.
    + rewrite length_app in *. cbn [length] in *. destruct Hacc as [H| ->]; cbn in *; lia.
    + apply IH. left. apply Z.leb_gt in Hl. exact Hl.
Qed.

Lemma collect_links_from_pdf_hrefs limit spans : ∀ acc,
  ∃ new, Pipeline.collect_links urljoin _extract_file_size limit spans acc = acc ++ new
    ∧ Forall (λ p, ∃ sp link h, sp ∈ spans ∧ Pipeline.find_a sp = Some link
                 ∧ Pipeline.href link = Some h
                 ∧ PyStr.contains "pdf" (PyStr.lower h) || Pipeline.endswith ".pdf" h = true
                 ∧ Pipeline.download_url p = urljoin "https://imslp.org" h
                 ∧ Pipeline.title p = Pipeline.link_text link) new.
Proof.
  induction spans as [|sp spans IH]; intros acc; cbn [Pipeline.collect_links].
  - exists []. rewrite app_nil_r. split; [reflexivity | constructor].
  - assert (Hskip : ∃ new,
      Pipeline.collect_links urljoin _extract_file_size limit spans acc = acc ++ new
      ∧ Forall (λ p, ∃ sp0 link h, sp0 ∈ sp :: spans ∧ Pipeline.find_a sp0 = Some link
                 ∧ Pipeline.href link = Some h
                 ∧ PyStr.contains "pdf" (PyStr.lower h) || Pipeline.endswith ".pdf" h = true
                 ∧ Pipeline.download_url p = urljoin "https://imslp.org" h
                 ∧ Pipeline.title p = Pipeline.link_text link) new).
    { destruct (IH acc) as (new & Hnew & Hall). exists new. split; [exact Hnew|].
      eapply Forall_impl; [exact Hall|]. cbn. intros p (sp0 & link & h & Hin & Hrest).
      exists sp0, link, h. split; [right; exact Hin | exact Hrest]. }
    destruct (Pipeline.find_a sp) as [link|] eqn:Hlink; [|exact Hskip].
    destruct (Pipeline.href link) as [h|] eqn:Hh; [|exact Hskip].
    destruct (negb _ && _) eqn:Hq; [|exact Hskip].
    apply andb_true_iff in Hq as [_ Hq]. rewrite orb_comm in Hq.
    set (info := {| Pipeline.title := Pipeline.link_text link;
                    Pipeline.download_url := urljoin "https://imslp.org" h;
                    Pipeline.description := Pipeline._extract_pdf_description sp;
                    Pipeline.file_size := _extract_file_size sp |}).
    assert (Hinfo : ∃ sp0 link0 h0, sp0 ∈ sp :: spans ∧ Pipeline.find_a sp0 = Some link0
                 ∧ Pipeline.href link0 = Some h0
                 ∧ PyStr.contains "pdf" (PyStr.lower h0) || Pipeline.endswith ".pdf" h0 = true
                 ∧ Pipeline.download_url info = urljoin "https://imslp.org" h0
                 ∧ Pipeline.title info = Pipeline.link_text link0).
    { exists sp, link, h. repeat split; try assumption. left. }
    destruct (limit <=? _)%Z.
    + exists [info]. split; [reflexivity | constructor; [exact Hinfo | constructor]].
    + destruct (IH (acc ++ [info])) as (new & Hnew & Hall).
      exists (info :: new). split; [rewrite Hnew, <- app_assoc; reflexivity|].
      constructor; [exact Hinfo|].
      eapply Forall_impl; [exact Hall|]. cbn. intros p (sp0 & link0 & h0 & Hin & Hrest).
      exists sp0, link0, h0. split; [right; exact Hin | exact Hrest].
Qed.

Lemma test_imslp_url_run url s :
  ∃ b s', Pipeline.test_imslp_url url s = (Returned b, s')
    ∧ Pipeline.inner s' = Pipeline.inner s
    ∧ (b = true ↔ ∃ spans rest, Pipeline.replies s = Pipeline.Reply 200 spans :: rest).
Proof.
  unfold Pipeline.test_imslp_url, Pipeline.p_try_except.
  rewrite p_bind_run. cbn [Pipeline.record]. rewrite p_bind_run.
  unfold Pipeline.request. cbn [Pipeline.replies Pipeline.inner Pipeline.events].
  destruct (Pipeline.replies s) as [|[|st spans] rest] eqn:Hr.
  - eexists _, _. split; [reflexivity|]. split; [reflexivity|].
    split; [discriminate | intros (? & ? & [=])].
  - eexists _, _. split; [reflexivity|]. split; [reflexivity|].
    split; [discriminate | intros (? & ? & [=])].
  - eexists _, _. split; [reflexivity|]. split; [reflexivity|].
    cbn [fst]. split.
    + intros H. apply Nat.eqb_eq in H as ->. eauto.
    + intros (? & ? & [= -> _ _]). reflexivity.
Qed.

Lemma get_pdf_links_run url limit s :
  ∃ s', Pipeline.get_pdf_links_from_work urljoin _extract_file_size url limit s
        = (Returned (Pipeline.collect_links urljoin _extract_file_size limit
                       (page_spans (head (Pipeline.replies s))) []), s')
    ∧ Pipeline.inner s' = Pipeline.inner s
    ∧ Pipeline.replies s' = tail (Pipeline.replies s).
Proof.
  unfold Pipeline.get_pdf_links_from_work, Pipeline.p_try_except.
  rewrite p_bind_run. cbn [Pipeline.record]. rewrite p_bind_run. cbn [Pipeline.record].
  rewrite p_bind_run.
  unfold Pipeline.request. cbn [Pipeline.replies Pipeline.inner Pipeline.events].
  destruct (Pipeline.replies s) as [|[|st spans] rest] eqn:Hr; cbn [head tail page_spans].
  - eexists. split; [reflexivity|]. split; reflexivity.
  - eexists. split; [reflexivity|]. split; reflexivity.
  - rewrite p_bind_run. unfold Pipeline.raise_for_status. cbn [fst snd].
    destruct ((400 <=? st) && (st <? 600)).
    + eexists. split; [reflexivity|]. split; reflexivity.
    + eexists. split; [reflexivity|]. split; reflexivity.
Qed.

(** X12. [get_pdf_links_from_work] raises nothing and leaves the processor
    and its log as they are; it returns at most [limit] links, or one when
    [limit] is below 1, and every link comes from a link of the page whose
    address contains "pdf" in some case, joined to the address of the
    site. *)
Theorem pdf_links_are_limited (url : string) (limit : Z) (s : Pipeline.stage) :
  ∃ links s',
    Pipeline.get_pdf_links_from_work urljoin _extract_file_size url limit s
      = (Returned links, s')
    ∧ Pipeline.inner s' = Pipeline.inner s
    ∧ (Z.of_nat (length links) ≤ Z.max limit 1)%Z
    ∧ Forall (λ p, ∃ sp link h, sp ∈ page_spans (head (Pipeline.replies s))
                 ∧ Pipeline.find_a sp = Some link ∧ Pipeline.href link = Some h
                 ∧ PyStr.contains "pdf" (PyStr.lower h) || Pipeline.endswith ".pdf" h = true
                 ∧ Pipeline.download_url p = urljoin "https://imslp.org" h
                 ∧ Pipeline.title p = Pipeline.link_text link) links.
Proof.
  destruct (get_pdf_links_run url limit s) as (s' & Hrun & Hinner & _).
  eexists _, s'. split; [exact Hrun|]. split; [exact Hinner|]. split.
  - apply collect_links_bound. right. reflexivity.
  - destruct (collect_links_from_pdf_hrefs limit (page_spans (head (Pipeline.replies s))) [])
      as (new & -> & Hall). exact Hall.
Qed.

Lemma process_one_run i total work s :
  ∃ p s', Pipeline.process_one urljoin _extract_file_size i total work s = (Returned p, s')
    ∧ Pipeline.inner s' = Pipeline.inner s
    ∧ Pipeline.entry p = work
    ∧ consistent p.
Proof.
  unfold Pipeline.process_one. rewrite p_bind_run. cbn [Pipeline.record].
  destruct (CompleteSolutions.mapped_work work) as [mapped|] eqn:Hm.
  - rewrite p_bind_run.
    match goal with |- context [Pipeline.test_imslp_url ?u ?s0] =>
      destruct (test_imslp_url_run u s0) as (b & s1 & -> & Hi1 & _) end.
    destruct b.
    + rewrite p_bind_run.
      destruct (get_pdf_links_run (imslp_url mapped) 3 s1)
        as (s2 & -> & Hi2 & _).
      pose proof (collect_links_bound 3
                    (page_spans (head (Pipeline.replies s1))) [] (or_intror eq_refl)) as Hlen.
      rewrite p_bind_run. cbn [Pipeline.record mret Pipeline.P_ret].
      eexists _, _. split; [reflexivity|]. cbn [Pipeline.inner] in *. split; [congruence|].
      split; [reflexivity|]. unfold consistent.
      cbn [Pipeline.pdf_links_found Pipeline.pdf_links Pipeline.url_valid
           Pipeline.work_status Pipeline.entry Pipeline.work_url].
      rewrite Hm. repeat split; try eauto; try discriminate; try lia.
    + rewrite p_bind_run. cbn [Pipeline.record mret Pipeline.P_ret].
      eexists _, _. split; [reflexivity|]. cbn [Pipeline.inner] in *. split; [congruence|].
      split; [reflexivity|]. unfold consistent.
      cbn [Pipeline.pdf_links_found Pipeline.pdf_links Pipeline.url_valid
           Pipeline.work_status Pipeline.entry Pipeline.work_url length].
      rewrite Hm. repeat split; try eauto; try discriminate; try lia.
  - rewrite p_bind_run. cbn [Pipeline.record mret Pipeline.P_ret].
    eexists _, _. split; [reflexivity|]. cbn [Pipeline.inner]. split; [reflexivity|].
    split; [reflexivity|]. unfold consistent.
    cbn [Pipeline.pdf_links_found Pipeline.pdf_links Pipeline.url_valid
         Pipeline.work_status Pipeline.entry Pipeline.work_url length].
    rewrite Hm. repeat split; try eauto; try discriminate; try lia.
    intros [x Hx]. discriminate.
Qed.

Lemma process_loop_run total works : ∀ i acc s,
  ∃ ps s', Pipeline.process_loop urljoin _extract_file_size total i works acc s
           = (Returned (acc ++ ps), s')
    ∧ Pipeline.inner s' = Pipeline.inner s
    ∧ Pipeline.entry <$> ps = works
    ∧ Forall consistent ps.
Proof.
  induction works as [|work works IH]; intros i acc s; cbn [Pipeline.process_loop].
  - exists [], s. rewrite app_nil_r. repeat split. constructor.
  - rewrite p_bind_run.
    destruct (process_one_run i total work s) as (p & s1 & -> & Hi1 & He & Hc).
    rewrite p_bind_run. cbn [Pipeline.record].
    match goal with |- context [Pipeline.process_loop _ _ _ _ _ _ ?s0] =>
      destruct (IH (S i) (acc ++ [p]) s0) as (ps & s2 & -> & Hi2 & Hes & Hcs) end.
    exists (p :: ps), s2. split; [rewrite <- app_assoc; reflexivity|].
    split; [cbn [Pipeline.inner] in *; congruence|].
    split; [rewrite fmap_cons, He, Hes; reflexivity | constructor; assumption].
Qed.

Lemma process_csv_works_run fs csv_file max_works s :
  ∃ ps s', Pipeline.process_csv_works urljoin _extract_file_size fs csv_file max_works s
           = (Returned ps, s')
    ∧ self (Pipeline.inner s') = self (Pipeline.inner s)
    ∧ Pipeline.entry <$> ps
      = selected max_works (read_result fs csv_file (work_mappings (self (Pipeline.inner s))))
    ∧ Forall consistent ps.
Proof.
  unfold Pipeline.process_csv_works. rewrite p_bind_run. unfold Pipeline.lift.
  destruct (read_csv_works_run fs csv_file (Pipeline.inner s)) as (r & -> & _).
  fold (selected max_works (read_result fs csv_file (work_mappings (self (Pipeline.inner s))))).
  match goal with |- context [Pipeline.process_loop _ _ ?t 1 ?ws [] ?s0] =>
    destruct (process_loop_run t ws 1 [] s0) as (ps & s2 & -> & Hi & He & Hc) end.
  exists ps, s2. split; [reflexivity|]. split; [rewrite Hi; reflexivity|].
  split; assumption.
Qed.

(** X13. [process_csv_works] raises nothing and leaves the processor with
    its table as it is; in every work it returns the number of links is
    that of the list, at most 3; a work with a valid address is mapped,
    one without has no links; the status is "mapped" exactly when the
    entry has a mapped work and "no_mapping" exactly when it has none; and
    the address is the one of the mapped work. *)
Theorem processed_works_are_consistent (fs : string → option CompleteSolutions.csv_source)
    (csv_file : string) (max_works : option Z) (s : Pipeline.stage) :
  ∃ ps s',
    Pipeline.process_csv_works urljoin _extract_file_size fs csv_file max_works s
      = (Returned ps, s')
    ∧ self (Pipeline.inner s') = self (Pipeline.inner s)
    ∧ Forall consistent ps.
Proof.
  destruct (process_csv_works_run fs csv_file max_works s) as (ps & s' & H1 & H2 & _ & H4).
  eauto.
Qed.

(** X14. What [max_works] selects. With [None] or 0 every entry read is
    processed; with a positive [n] the first [n] entries; with a negative
    [n] all but the last [-n] entries. The works returned are those of
    the selected entries, in their order. *)
Theorem max_works_selects_the_first_entries
    (fs : string → option CompleteSolutions.csv_source) (csv_file : string)
    (max_works : option Z) (s : Pipeline.stage) (ps : list Pipeline.processed_work)
    (s' : Pipeline.stage) :
  Pipeline.process_csv_works urljoin _extract_file_size fs csv_file max_works s
    = (Returned ps, s') →
  let works := read_result fs csv_file (work_mappings (self (Pipeline.inner s))) in
  (max_works = None ∨ max_works = Some 0%Z → Pipeline.entry <$> ps = works)
  ∧ (∀ n, max_works = Some n → (0 < n)%Z →
       Pipeline.entry <$> ps = take (Z.to_nat n) works)
  ∧ (∀ n, max_works = Some n → (n < 0)%Z →
       Pipeline.entry <$> ps = take (length works - Z.to_nat (- n)) works).
Proof.
  destruct (process_csv_works_run fs csv_file max_works s) as (ps0 & s0 & -> & _ & He & _).
  intros [= <- <-] works. fold works in He. rewrite He. unfold selected. split; [|split].
  - intros [-> | ->]; reflexivity.
  - intros n -> Hn. destruct (n =? 0)%Z eqn:H0; [lia|].
    unfold Pipeline.slice_to. destruct (0 <=? n)%Z eqn:Hle; [reflexivity | lia].
  - intros n -> Hn. destruct (n =? 0)%Z eqn:H0; [lia|].
    unfold Pipeline.slice_to. destruct (0 <=? n)%Z eqn:Hle; [lia | reflexivity].
Qed.

(** X15. The counts of [generate_html_report] over the works that
    [process_csv_works] returns: valid addresses are at most the mapped
    works, these at most all works, and the PDFs at most 3 for each valid
    address; the success rate is computed without raising and lies
    between 0 and 100. *)
Theorem report_counts_are_consistent (fs : string → option CompleteSolutions.csv_source)
    (csv_file : string) (max_works : option Z) (s s' : Pipeline.stage)
    (works : list Pipeline.processed_work) (w : world) :
  Pipeline.process_csv_works urljoin _extract_file_size fs csv_file max_works s
    = (Returned works, s') →
  Pipeline.valid_urls works ≤ Pipeline.mapped_works works
  ∧ Pipeline.mapped_works works ≤ Pipeline.total_works works
  ∧ Pipeline.total_pdfs works ≤ 3 * Pipeline.valid_urls works
  ∧ ∃ q, Pipeline.success_rate works w = (Returned q, w)
       ∧ Qle (inject_Z 0) q ∧ Qle q (inject_Z 100).
Proof.
  destruct (process_csv_works_run fs csv_file max_works s)
    as (ps & s0 & -> & _ & _ & Hc).
  intros [= <- <-]. destruct (counts_of_consistent ps Hc) as (H1 & H2 & H3).
  repeat split; try assumption. apply success_rate_run.
Qed.

(** X16. When no row of the file gives an entry, [process_csv_works]
    returns no work; the success rate of the report is then 0, computed
    without raising, while the statistics of [main] raise
    [ZeroDivisionError]. With at least one work they are computed. *)
Theorem main_statistics_need_a_work (fs : string → option CompleteSolutions.csv_source)
    (csv_file : string) (max_works : option Z) (s s' : Pipeline.stage)
    (works : list Pipeline.processed_work) (w : world) :
  Pipeline.process_csv_works urljoin _extract_file_size fs csv_file max_works s
    = (Returned works, s') →
  (read_result fs csv_file (work_mappings (self (Pipeline.inner s))) = [] →
   works = []
   ∧ Pipeline.success_rate works w = (Returned (inject_Z 0), w)
   ∧ Pipeline.main_statistics works w = (Raised ZeroDivisionError, w))
  ∧ (works ≠ [] → ∃ r, Pipeline.main_statistics works w = (Returned r, w)).
Proof.
  destruct (process_csv_works_run fs csv_file max_works s) as (ps & s0 & -> & _ & He & _).
  intros [= <- <-]. split; [|apply main_statistics_run].
  intros Hr. rewrite Hr, selected_nil in He. apply fmap_nil_inv in He. subst ps.
  split; [reflexivity|]. split; reflexivity.
Qed.

End PipelineMethods.

Example two_matches_run :
  (λ p, (Pipeline.work_status p, Pipeline.url_valid p, Pipeline.pdf_links_found p,
         Pipeline.download_url <$> Pipeline.pdf_links p)) <$> two_matches_works
  = [ ("mapped", true, 3,
       ["https://imslp.org/files/a.pdf"; "https://imslp.org/files/PDF/c";
        "https://imslp.org/files/d.pdf"]);
      ("mapped", false, 0, []);
      ("no_mapping", false, 0, []) ].
Proof. vm_compute. reflexivity. Qed.

Example limit_zero_gives_one_link :
  Pipeline.download_url <$>
    Pipeline.collect_links plain_urljoin no_file_size 0
      [score_span "/files/a.pdf"; score_span "/files/d.pdf"] []
  = ["https://imslp.org/files/a.pdf"].
Proof. vm_compute. reflexivity. Qed.

Lemma report_counts_are_consistent_witness :
  Pipeline.valid_urls two_matches_works ≤ Pipeline.mapped_works two_matches_works
  ∧ Pipeline.mapped_works two_matches_works ≤ Pipeline.total_works two_matches_works
  ∧ Pipeline.total_pdfs two_matches_works ≤ 3 * Pipeline.valid_urls two_matches_works
  ∧ ∃ q, Pipeline.success_rate two_matches_works (a_world suite_table)
         = (Returned q, a_world suite_table)
       ∧ Qle (inject_Z 0) q ∧ Qle q (inject_Z 100).
Proof.
  apply (report_counts_are_consistent plain_urljoin no_file_size two_matches_file_system
           "two.csv" None (a_stage suite_table two_pages)
           (Pipeline.process_csv_works plain_urljoin no_file_size
              two_matches_file_system "two.csv" None (a_stage suite_table two_pages)).2).
  vm_compute. reflexivity.
Defined.

Lemma max_works_selects_the_first_entries_witness :
  Pipeline.entry <$>
    result_of (Pipeline.process_csv_works plain_urljoin no_file_size
                 two_matches_file_system "two.csv" (Some 0%Z) (a_stage suite_table two_pages))
    = read_result two_matches_file_system "two.csv" suite_table
  ∧ Pipeline.entry <$>
      result_of (Pipeline.process_csv_works plain_urljoin no_file_size
                   two_matches_file_system "two.csv" (Some 2%Z) (a_stage suite_table two_pages))
    = take 2 (read_result two_matches_file_system "two.csv" suite_table)
  ∧ Pipeline.entry <$>
      result_of (Pipeline.process_csv_works plain_urljoin no_file_size
                   two_matches_file_system "two.csv" (Some (-1)%Z)
                   (a_stage suite_table two_pages))
    = take 2 (read_result two_matches_file_system "two.csv" suite_table).
Proof.
  split; [|split].
  - refine (proj1 (max_works_selects_the_first_entries plain_urljoin no_file_size
      two_matches_file_system "two.csv" (Some 0%Z) (a_stage suite_table two_pages) _
      (Pipeline.process_csv_works plain_urljoin no_file_size two_matches_file_system
         "two.csv" (Some 0%Z) (a_stage suite_table two_pages)).2 _) _).
    + vm_compute. reflexivity.
    + right. reflexivity.
  - refine (proj1 (proj2 (max_works_selects_the_first_entries plain_urljoin no_file_size
      two_matches_file_system "two.csv" (Some 2%Z) (a_stage suite_table two_pages) _
      (Pipeline.process_csv_works plain_urljoin no_file_size two_matches_file_system
         "two.csv" (Some 2%Z) (a_stage suite_table two_pages)).2 _)) 2%Z eq_refl _).
    + vm_compute. reflexivity.
    + lia.
  - refine (proj2 (proj2 (max_works_selects_the_first_entries plain_urljoin no_file_size
      two_matches_file_system "two.csv" (Some (-1)%Z) (a_stage suite_table two_pages) _
      (Pipeline.process_csv_works plain_urljoin no_file_size two_matches_file_system
         "two.csv" (Some (-1)%Z) (a_stage suite_table two_pages)).2 _)) (-1)%Z eq_refl _).
    + vm_compute. reflexivity.
    + lia.
Defined.

Lemma main_statistics_need_a_work_witness :
  Pipeline.success_rate [] (a_world suite_table) = (Returned (inject_Z 0), a_world suite_table)
  ∧ Pipeline.main_statistics [] (a_world suite_table)
    = (Raised ZeroDivisionError, a_world suite_table).
Proof.
  refine (proj2 (proj1 (main_statistics_need_a_work plain_urljoin no_file_size
    empty_file_system "empty.csv" None (a_stage suite_table two_pages)
    (Pipeline.process_csv_works plain_urljoin no_file_size empty_file_system "empty.csv"
       None (a_stage suite_table two_pages)).2 [] (a_world suite_table) _) _)).
  - vm_compute. reflexivity.
  - vm_compute. reflexivity.
Defined.
